(** * ZimbraBatchClient: request routing, batching and session propagation

    A shallow embedding of the dispatching core of
    [src/batch-client/index.ts]: the constructor, [jsonRequest],
    [batchDataHandler] and [dataHandler], together with the part of the
    [dataloader] package (imported on line 1 of the source) that these
    members drive; and of the public methods built on them: [resolve], the
    request bodies of [action], [getMessage] and [login], the appointment
    methods, [noop] and [shareInfos].

    JavaScript objects have an identity; a request object is therefore a
    record that carries its address ([oid]) next to its properties.  Promises
    are numbered, and every observable effect (an outgoing transport call, a
    write of [this.sessionId], an invocation of the notification handler, the
    settling of a caller's promise) is appended to a log in program order. *)

From stdpp Require Import base strings list gmap.

(** ** JavaScript values used by the client *)

(** Address of a JavaScript object: two objects are the same key of a [Map]
    exactly when their addresses agree, whatever their properties hold. *)
Definition ref := nat.

(** Number of a promise handed to a caller. *)
Definition promise := nat.

(** Number of a transport call (one [fetch] round trip). *)
Definition call := nat.

(** An opaque JSON payload, kept as its text. *)
Definition RequestBody := string.

(** A notification block of a reply header; an object, hence always truthy. *)
Record Notification := { notification_content : string }.

(** Truthiness of an optional string property: [undefined] and the empty
    string are falsy. *)
Definition truthy (s : option string) : bool :=
  match s with
  | Some t => negb (String.eqb t EmptyString)
  | None => false
  end.

(** [a || b] on an optional string. *)
Definition or_else (a : option string) (b : string) : string :=
  match a with
  | Some t => if String.eqb t EmptyString then b else t
  | None => b
  end.

(** ** Requests and replies *)

(** [JsonRequestOptions] as the client passes them around.  [oid] is the
    address of the options object, not one of its properties. *)
Record JsonRequestOptions := {
  oid : ref;
  name : string;
  namespace : option string;
  body : option RequestBody;
  accountName : option string;
}.

(** [Error] instances, and the elements of the array a batch function
    resolves with: a value or an [Error] instance.  An error is one made by
    the request layer or thrown by other code ([Fault], with its message),
    or the [TypeError] the loader throws when the array a batch function
    resolves with has not the length of its keys; the message of that one
    quotes the keys and the values, which are kept here as they are.  A
    body is parsed JSON and so never an [Error] instance itself. *)
#[local] Unset Elimination Schemes.
Inductive Error :=
| Fault (message : string)
| TypeError (keys : list JsonRequestOptions) (values : list Value)
with Value :=
| VError (e : Error)
| VBody (b : RequestBody).
#[local] Set Elimination Schemes.

(** A registered [NotificationHandler]: a function of the application,
    named by a number.  Called with a notification it returns, or throws;
    [handler_throws] tells which, and what.  Its invocations are events of
    the log. *)
Record NotificationHandler := {
  handler_name : nat;
  handler_throws : Notification → option Error;
}.

(** A handler that always returns. *)
Definition quiet_handler (n : nat) : NotificationHandler :=
  {| handler_name := n; handler_throws := fun _ => None |}.

(** The argument of [batchJsonRequest]: [{ requests, sessionId, origin }]. *)
Record BatchRequestOptions := {
  be_requests : list JsonRequestOptions;
  be_sessionId : string;
  be_origin : string;
}.

(** The argument of [jsonRequest] in [dataHandler]:
    [{ ...requests[0], sessionId, origin }].  Spreading [undefined] (an empty
    input list) contributes no property, which is [None] here. *)
Record SingleRequestOptions := {
  se_request : option JsonRequestOptions;
  se_sessionId : string;
  se_origin : string;
}.

(** What [get(response, 'header.context.session.id')] and
    [get(response, 'header.context.notify')] can see of a reply: [get] yields
    [undefined] for every missing step of the path, so an absent header, an
    absent context and an absent property all read as [None] (resp. as no
    block). *)
Record ResponseHeader := {
  session_id : option string;
  notify : list Notification;
}.

(** One element of [response.requests]: an error value, or [{ body }]. *)
Inductive BatchItem :=
| ItemError (e : Error)
| ItemReply (body : RequestBody).

Record BatchRequestResponse := {
  b_header : ResponseHeader;
  requests : list BatchItem;
}.

(** The value a single call resolves with: either an error value (then the
    response itself is that value) or an object with a [body]. *)
Record RequestResponse := {
  s_header : ResponseHeader;
  s_item : BatchItem;
}.

(** Modelled from the spec: [batchJsonRequest] is defined in [../request],
    which is not among the sources at hand.  Of the reply it resolves with,
    the data model says: "ordered list of Responses out (same length and
    order as the input list)". *)
Definition answers_each_request (reqs : list JsonRequestOptions)
    (response : BatchRequestResponse) : Prop :=
  length (requests response) = length reqs.

(** ** Observable effects *)

Inductive Event :=
| BatchCall (id : call) (env : BatchRequestOptions)
| SingleCall (id : call) (env : SingleRequestOptions)
| SessionSet (t : string)
| Notified (h : NotificationHandler) (n : Notification)
| Threw (e : Error)
| Resolved (p : promise) (b : RequestBody)
| Rejected (p : promise) (e : Error).

(** ** The [dataloader] package

    The loader is not part of this repository; the definitions of this module
    follow the package's [load], [dispatchQueue], [dispatchQueueBatch] and
    [failedDispatch]: a memoisation cache (a [Map] keyed by the key object
    itself), a queue of [{ key, resolve, reject }] entries, one dispatch per
    tick when batching and one per load otherwise. *)
Module DataLoader.

Record QueueEntry := {
  key : JsonRequestOptions;
  settle : promise;
}.

Record t := {
  batch : bool;                       (* options.batch !== false *)
  cache : bool;                       (* options.cache !== false *)
  promiseCache : gmap ref promise;    (* this._promiseCache *)
  queue : list QueueEntry;            (* this._queue *)
}.

(** [new DataLoader(fn)] and [new DataLoader(fn, { batch })]. *)
Definition create (opt_batch : option bool) : t :=
  {| batch := default true opt_batch;
     cache := true;
     promiseCache := ∅;
     queue := [] |}.

Definition with_queue (q : list QueueEntry) (l : t) : t :=
  {| batch := batch l; cache := cache l;
     promiseCache := promiseCache l; queue := q |}.

Definition with_promiseCache (m : gmap ref promise) (l : t) : t :=
  {| batch := batch l; cache := cache l;
     promiseCache := m; queue := queue l |}.

(** The cache lookup at the head of [load]. *)
Definition cached (l : t) (k : JsonRequestOptions) : option promise :=
  if cache l then promiseCache l !! oid k else None.

(** The rest of [load] on a cache miss: the entry for the new promise [p]
    is pushed on the queue and, when caching, the promise is remembered
    under the key. *)
Definition enqueue (l : t) (k : JsonRequestOptions) (p : promise) : t :=
  {| batch := batch l; cache := cache l;
     promiseCache :=
       if cache l then <[oid k := p]> (promiseCache l) else promiseCache l;
     queue := queue l ++ [{| key := k; settle := p |}] |}.

(** [loader.clear(key)]. *)
Definition clear (k : JsonRequestOptions) (l : t) : t :=
  with_promiseCache (delete (oid k) (promiseCache l)) l.

(** [queue.map(({ key }) => key)]. *)
Definition keys (q : list QueueEntry) : list JsonRequestOptions :=
  map key q.

(** The [resolve]/[reject] of one entry applied to its value. *)
Definition settle_entry (e : QueueEntry) (v : Value) : Event :=
  match v with
  | VError err => Rejected (settle e) err
  | VBody b => Resolved (settle e) b
  end.

(** [failedDispatch]: every key is cleared and every entry rejected. *)
Definition failedDispatch (l : t) (q : list QueueEntry) (error : Error)
  : t * list Event :=
  (foldl (fun l' k => clear k l') l (keys q),
   map (fun e => Rejected (settle e) error) q).

(** The [TypeError] thrown for [values] that do not match [keys] in
    length. *)
Definition length_mismatch (ks : list JsonRequestOptions)
    (values : list Value) : Error :=
  TypeError ks values.

(** The continuation of [dispatchQueueBatch] once the batch function's
    promise has settled. *)
Definition settle_batch (l : t) (q : list QueueEntry)
    (outcome : Error + list Value) : t * list Event :=
  match outcome with
  | inl error => failedDispatch l q error
  | inr values =>
      if decide (length values = length (keys q))
      then (l, zip_with settle_entry q values)
      else failedDispatch l q (length_mismatch (keys q) values)
  end.

End DataLoader.

(** ** The client *)

Record ZimbraClientOptions := {
  zimbraOrigin : option string;
  opt_soapPathname : option string;
  opt_notificationHandler : option NotificationHandler;
}.

Record ZimbraBatchClient := {
  origin : string;
  sessionId : string;
  soapPathname : string;
  batchDataLoader : DataLoader.t;
  dataLoader : DataLoader.t;
  notificationHandler : option NotificationHandler;
}.

Section Constructor.

(** The two defaults come from [../request], which is not among the
    sources at hand. *)
Variables DEFAULT_HOSTNAME DEFAULT_SOAP_PATHNAME : string.

Definition new_ZimbraBatchClient (options : ZimbraClientOptions)
  : ZimbraBatchClient :=
  {| origin := or_else (zimbraOrigin options) DEFAULT_HOSTNAME;
     sessionId := "1";
     soapPathname := or_else (opt_soapPathname options) DEFAULT_SOAP_PATHNAME;
     batchDataLoader := DataLoader.create None;
     dataLoader := DataLoader.create (Some false);
     notificationHandler := opt_notificationHandler options |}.

End Constructor.

Definition with_sessionId (s : string) (this : ZimbraBatchClient)
  : ZimbraBatchClient :=
  {| origin := origin this; sessionId := s;
     soapPathname := soapPathname this;
     batchDataLoader := batchDataLoader this;
     dataLoader := dataLoader this;
     notificationHandler := notificationHandler this |}.

Definition with_batchDataLoader (l : DataLoader.t) (this : ZimbraBatchClient)
  : ZimbraBatchClient :=
  {| origin := origin this; sessionId := sessionId this;
     soapPathname := soapPathname this;
     batchDataLoader := l;
     dataLoader := dataLoader this;
     notificationHandler := notificationHandler this |}.

Definition with_dataLoader (l : DataLoader.t) (this : ZimbraBatchClient)
  : ZimbraBatchClient :=
  {| origin := origin this; sessionId := sessionId this;
     soapPathname := soapPathname this;
     batchDataLoader := batchDataLoader this;
     dataLoader := l;
     notificationHandler := notificationHandler this |}.

(** [if (sessionId) { this.sessionId = sessionId; }] *)
Definition assign_session (sessionId' : option string)
    (this : ZimbraBatchClient) : ZimbraBatchClient * list Event :=
  match sessionId' with
  | Some t =>
      if truthy (Some t) then (with_sessionId t this, [SessionSet t])
      else (this, [])
  | None => (this, [])
  end.

(** [if (notifications && this.notificationHandler) {
       this.notificationHandler(notifications); }]
    The handler is invoked; when it throws, nothing catches what it threw,
    which ends the callback this statement is part of. *)
Definition relay_notification (notifications : option Notification)
    (this : ZimbraBatchClient) : list Event :=
  match notifications, notificationHandler this with
  | Some n, Some h =>
      Notified h n ::
      match handler_throws h n with
      | Some e => [Threw e]
      | None => []
      end
  | _, _ => []
  end.

(** What a callback threw, if it did. *)
Definition thrown (evs : list Event) : option Error :=
  head (omap (fun ev => match ev with Threw e => Some e | _ => None end) evs).

(** [isError(r) ? r : r.body] *)
Definition item_value (r : BatchItem) : Value :=
  match r with
  | ItemError e => VError e
  | ItemReply b => VBody b
  end.

(** *** [batchDataHandler] *)

(** The envelope handed to [batchJsonRequest]. *)
Definition batchDataHandler_request (this : ZimbraBatchClient)
    (reqs : list JsonRequestOptions) : BatchRequestOptions :=
  {| be_requests := reqs;
     be_sessionId := sessionId this;
     be_origin := origin this |}.

(** The [.then] callback: the client it leaves, its effects in order, and
    the array of its [return] statement.  When the notification handler
    throws (see [thrown]) the callback ends there: the [return] is not
    reached and the promise of the callback is rejected with what was
    thrown, which [handler_settled] takes into account. *)
Definition batchDataHandler_then (this : ZimbraBatchClient)
    (response : BatchRequestResponse)
  : ZimbraBatchClient * list Event * list Value :=
  let sessionId' := session_id (b_header response) in
  let notifications := head (notify (b_header response)) in
  let '(this1, written) := assign_session sessionId' this in
  let relayed := relay_notification notifications this1 in
  (this1, written ++ relayed, map item_value (requests response)).

(** *** [dataHandler] *)

Definition dataHandler_request (this : ZimbraBatchClient)
    (reqs : list JsonRequestOptions) : SingleRequestOptions :=
  {| se_request := head reqs;
     se_sessionId := sessionId this;
     se_origin := origin this |}.

Definition dataHandler_then (this : ZimbraBatchClient)
    (response : RequestResponse)
  : ZimbraBatchClient * list Event * list Value :=
  let sessionId' := session_id (s_header response) in
  let notifications := head (notify (s_header response)) in
  let '(this1, written) := assign_session sessionId' this in
  let relayed := relay_notification notifications this1 in
  (this1, written ++ relayed,
   match s_item response with
   | ItemError e => [VError e]
   | ItemReply b => [VBody b]
   end).

(** ** The event loop

    One client, the promises and calls created so far, the transport calls
    still awaiting their reply, and the log of effects (oldest first). *)

(** The two loaders of a client. *)
Inductive Loader := Batching | Single.

Definition loader (which : Loader) (this : ZimbraBatchClient) : DataLoader.t :=
  match which with
  | Batching => batchDataLoader this
  | Single => dataLoader this
  end.

Definition with_loader (which : Loader) (l : DataLoader.t)
    (this : ZimbraBatchClient) : ZimbraBatchClient :=
  match which with
  | Batching => with_batchDataLoader l this
  | Single => with_dataLoader l this
  end.

(** A transport call awaiting its reply, with the queue entries it serves. *)
Record InFlight := {
  via : Loader;
  entries : list DataLoader.QueueEntry;
}.

Record World := {
  client : ZimbraBatchClient;
  next_promise : promise;
  next_call : call;
  in_flight : gmap call InFlight;
  log : list Event;
}.

Definition boot (this : ZimbraBatchClient) : World :=
  {| client := this; next_promise := 0; next_call := 0;
     in_flight := ∅; log := [] |}.

(** The batch function of a loader, up to the point where it awaits the
    transport: the outgoing call. *)
Definition handler_request (which : Loader) (id : call)
    (this : ZimbraBatchClient) (reqs : list JsonRequestOptions) : Event :=
  match which with
  | Batching => BatchCall id (batchDataHandler_request this reqs)
  | Single => SingleCall id (dataHandler_request this reqs)
  end.

(** [dispatchQueue]: the queue is taken and replaced by an empty one, and the
    batch function is called on its keys. *)
Definition dispatchQueue (which : Loader) (w : World) : World :=
  let l := loader which (client w) in
  let q := DataLoader.queue l in
  let this := with_loader which (DataLoader.with_queue [] l) (client w) in
  let id := next_call w in
  {| client := this;
     next_promise := next_promise w;
     next_call := S id;
     in_flight := <[id := {| via := which; entries := q |}]> (in_flight w);
     log := log w ++ [handler_request which id this (DataLoader.keys q)] |}.

(** [loader.load(key)].  On a cache hit the cached promise is returned and
    nothing else happens.  Otherwise a new promise is queued; when the queue
    thereby has length one, a batching loader schedules its dispatch for the
    end of the tick (see [tick]) and a non-batching loader dispatches at
    once.  (The package stores the promise in the cache after the dispatch;
    the dispatch does not read the cache.) *)
Definition load (which : Loader) (w : World) (k : JsonRequestOptions)
  : World * promise :=
  let l := loader which (client w) in
  match DataLoader.cached l k with
  | Some p => (w, p)
  | None =>
      let p := next_promise w in
      let l' := DataLoader.enqueue l k p in
      let w1 := {| client := with_loader which l' (client w);
                   next_promise := S p;
                   next_call := next_call w;
                   in_flight := in_flight w;
                   log := log w |} in
      (if decide (length (DataLoader.queue l') = 1)
       then if DataLoader.batch l' then w1 else dispatchQueue which w1
       else w1,
       p)
  end.

(** [jsonRequest]: [accountName ? this.dataLoader.load(options)
                               : this.batchDataLoader.load(options)]. *)
Definition jsonRequest (w : World) (options : JsonRequestOptions)
  : World * promise :=
  if truthy (accountName options)
  then load Single w options
  else load Batching w options.

(** The dispatch a batching loader scheduled, run when the tick ends. *)
Definition run_scheduled (which : Loader) (w : World) : World :=
  let l := loader which (client w) in
  if DataLoader.batch l
  then match DataLoader.queue l with
       | [] => w
       | _ :: _ => dispatchQueue which w
       end
  else w.

Definition tick (w : World) : World :=
  run_scheduled Single (run_scheduled Batching w).

(** How the transport settles a call. *)
Inductive TransportOutcome :=
| Failed (e : Error)
| BatchReplied (r : BatchRequestResponse)
| SingleReplied (r : RequestResponse).

(** How the promise of a [.then] callback settles: rejected with what the
    callback threw, resolved with what it returned otherwise. *)
Definition callback_settled (evs : list Event) (values : list Value)
  : Error + list Value :=
  match thrown evs with
  | Some e => inl e
  | None => inr values
  end.

(** The promise a batch function returns, once the transport has settled:
    a rejection skips the [.then] callback and is passed on; a reply runs
    it.  A reply of the other call's shape cannot occur. *)
Definition handler_settled (which : Loader) (this : ZimbraBatchClient)
    (o : TransportOutcome)
  : option (ZimbraBatchClient * list Event * (Error + list Value)) :=
  match o, which with
  | Failed e, _ => Some (this, [], inl e)
  | BatchReplied r, Batching =>
      let '(this1, evs, values) := batchDataHandler_then this r in
      Some (this1, evs, callback_settled evs values)
  | SingleReplied r, Single =>
      let '(this1, evs, values) := dataHandler_then this r in
      Some (this1, evs, callback_settled evs values)
  | _, _ => None
  end.

(** The transport settles call [id]: the batch function's callback runs,
    then the loader settles the promises of the entries the call serves. *)
Definition complete (id : call) (o : TransportOutcome) (w : World) : World :=
  match in_flight w !! id with
  | None => w
  | Some f =>
      match handler_settled (via f) (client w) o with
      | None => w
      | Some (this1, evs, outcome) =>
          let '(l', settled) :=
            DataLoader.settle_batch (loader (via f) this1) (entries f) outcome in
          {| client := with_loader (via f) l' this1;
             next_promise := next_promise w;
             next_call := next_call w;
             in_flight := delete id (in_flight w);
             log := log w ++ evs ++ settled |}
      end
  end.

Inductive Action :=
| Submit (options : JsonRequestOptions)
| Tick
| Reply (id : call) (o : TransportOutcome).

Definition step (w : World) (a : Action) : World :=
  match a with
  | Submit options => (jsonRequest w options).1
  | Tick => tick w
  | Reply id o => complete id o w
  end.

Definition run (w : World) (actions : list Action) : World :=
  foldl step w actions.

(** The effects logged between two worlds. *)
Definition since (w w' : World) : list Event :=
  drop (length (log w)) (log w').

(** ** Sample data *)

Definition sample_client : ZimbraBatchClient :=
  new_ZimbraBatchClient "localhost" "/service/soap"
    {| zimbraOrigin := None; opt_soapPathname := None;
       opt_notificationHandler := Some (quiet_handler 7) |}.

Definition getFolder (o : ref) : JsonRequestOptions :=
  {| oid := o; name := "GetFolder"; namespace := None;
     body := Some "{}"; accountName := None |}.

Definition getFolderAs (o : ref) (account : string) : JsonRequestOptions :=
  {| oid := o; name := "GetFolder"; namespace := None;
     body := Some "{}"; accountName := Some account |}.

Definition reply_with (token : option string) (blocks : list Notification)
    (items : list BatchItem) : BatchRequestResponse :=
  {| b_header := {| session_id := token; notify := blocks |};
     requests := items |}.

(** A client that has sent its first batch, carrying one request. *)
Definition first_call_sent : World :=
  run (boot sample_client) [Submit (getFolder 1); Tick].

(** A client with one batch of three requests awaiting its reply. *)
Definition three_in_flight : World :=
  run (boot sample_client)
    [Submit (getFolder 1); Submit (getFolder 2); Submit (getFolder 3); Tick].

Definition three_entries : list DataLoader.QueueEntry :=
  [{| DataLoader.key := getFolder 1; DataLoader.settle := 0 |};
   {| DataLoader.key := getFolder 2; DataLoader.settle := 1 |};
   {| DataLoader.key := getFolder 3; DataLoader.settle := 2 |}].

(** A reply that refreshes the session, carries two notification blocks,
    and fails its first and last item. *)
Definition mixed_reply : BatchRequestResponse :=
  reply_with (Some "s2"%string)
    [{| notification_content := "first" |};
     {| notification_content := "second" |}]
    [ItemError (Fault "no such folder"); ItemReply "inbox";
     ItemError (Fault "permission denied")].

(** The notification handler, when the reply makes the callback invoke
    it, returns without throwing. *)
Definition handler_returns (this : ZimbraBatchClient) (h : ResponseHeader)
  : Prop :=
  ∀ n handler,
    head (notify h) = Some n →
    notificationHandler this = Some handler →
    handler_throws handler n = None.





(** ** Reading the log *)

(** The settling of a caller's promise. *)
Definition is_delivery (ev : Event) : bool :=
  match ev with
  | Resolved _ _ | Rejected _ _ => true
  | _ => false
  end.

Definition is_session_set (ev : Event) : bool :=
  match ev with
  | SessionSet _ => true
  | _ => false
  end.

Definition is_notified (ev : Event) : bool :=
  match ev with
  | Notified _ _ => true
  | _ => false
  end.

Definition is_call (ev : Event) : bool :=
  match ev with
  | BatchCall _ _ | SingleCall _ _ => true
  | _ => false
  end.

(** The session token an outgoing call carries. *)
Definition call_session (ev : Event) : option string :=
  match ev with
  | BatchCall _ env => Some (be_sessionId env)
  | SingleCall _ env => Some (se_sessionId env)
  | _ => None
  end.

(** The value of [this.sessionId] after the writes of a stretch of log. *)
Definition replay_session (s : string) (evs : list Event) : string :=
  foldl (fun s ev => match ev with SessionSet t => t | _ => s end) s evs.

(** A request is account-scoped when its [accountName] is a non-empty
    string. *)
Definition scoped (options : JsonRequestOptions) : Prop :=
  ∃ a, accountName options = Some a ∧ a ≠ EmptyString.

(** The header of a reply, when the transport produced one. *)
Definition reply_header (o : TransportOutcome) : option ResponseHeader :=
  match o with
  | Failed _ => None
  | BatchReplied r => Some (b_header r)
  | SingleReplied r => Some (s_header r)
  end.

(** A reply has the shape of the call it answers. *)
Definition answers (which : Loader) (o : TransportOutcome) : bool :=
  match o, which with
  | Failed _, _ => true
  | BatchReplied _, Batching => true
  | SingleReplied _, Single => true
  | _, _ => false
  end.

Definition is_reply (a : Action) : bool :=
  match a with
  | Reply _ _ => true
  | _ => false
  end.

(** The worlds a client can be in: a freshly constructed client, driven by
    any sequence of submissions, ticks and transport replies. *)
Inductive reachable : World → Prop :=
| reachable_boot (hostname pathname : string) (options : ZimbraClientOptions) :
    reachable (boot (new_ZimbraBatchClient hostname pathname options))
| reachable_step (w : World) (a : Action) :
    reachable w → reachable (step w a).

(** Every outgoing call of a stretch of log carries the session [s]. *)
Definition calls_carry (s : string) (evs : list Event) : Prop :=
  Forall (fun ev => ∀ s', call_session ev = Some s' → s' = s) evs.

(** [w'] comes after [w] by dispatching only: the log grew by calls that all
    carry the session of [w], and the session is still the same. *)
Definition dispatched_from (w w' : World) : Prop :=
  ∃ evs, log w' = log w ++ evs ∧
         sessionId (client w') = sessionId (client w) ∧
         Forall (fun ev => is_call ev = true) evs ∧
         calls_carry (sessionId (client w)) evs.

(** The sequential-call property, a reply that "carries a session token"
    being one whose [header.context.session.id] is present: after the
    completion of a call whose reply carries [t], every call dispatched
    before the next completion carries [t]. *)
Definition present_token_reaches_next_call : Prop :=
  ∀ (w : World) (id : call) (f : InFlight) (o : TransportOutcome)
    (h : ResponseHeader) (t : string) (later : list Action),
    in_flight w !! id = Some f →
    answers (via f) o = true →
    reply_header o = Some h →
    session_id h = Some t →
    Forall (fun a => is_reply a = false) later →
    calls_carry t (since (complete id o w) (run (complete id o w) later)).

(** The same property with the token non-empty and nothing said of what
    happens between the completion and the later call: after the completion
    of a call whose reply carries the non-empty [t], every call dispatched
    afterwards carries [t]. *)
Definition token_reaches_every_later_call : Prop :=
  ∀ (w : World) (id : call) (f : InFlight) (o : TransportOutcome)
    (h : ResponseHeader) (t : string) (later : list Action),
    in_flight w !! id = Some f →
    answers (via f) o = true →
    reply_header o = Some h →
    session_id h = Some t →
    t ≠ EmptyString →
    calls_carry t (since (complete id o w) (run (complete id o w) later)).

(** Every outgoing call of a stretch of log carries the session as the
    writes logged before it have left it, [s] being the session at the
    start of the stretch. *)
Fixpoint calls_follow_writes (s : string) (evs : list Event) : Prop :=
  match evs with
  | [] => True
  | ev :: evs =>
      (∀ s', call_session ev = Some s' → s' = s) ∧
      calls_follow_writes (replay_session s [ev]) evs
  end.

(** [w'] comes after [w]: the log grew, the session of [w'] is the one of
    [w] with the logged writes applied, and every call logged in between
    carries the session as it was when the call was made. *)
Definition replayed_from (w w' : World) : Prop :=
  ∃ evs, log w' = log w ++ evs ∧
         sessionId (client w') = replay_session (sessionId (client w)) evs ∧
         calls_follow_writes (sessionId (client w)) evs.

(** A client with two batch calls awaiting their replies, one request
    each. *)
Definition two_calls_sent : World :=
  run (boot sample_client)
    [Submit (getFolder 1); Tick; Submit (getFolder 2); Tick].

(** The session update, a reply "carrying a token" being one whose
    [header.context.session.id] is present: the callback of either handler
    leaves the client with the reply's token as its session, and otherwise
    as it was. *)
Definition session_follows_present_token : Prop :=
  ∀ (this : ZimbraBatchClient)
    (batched : BatchRequestResponse) (single : RequestResponse),
    (batchDataHandler_then this batched).1.1 =
      match session_id (b_header batched) with
      | Some t => with_sessionId t this
      | None => this
      end ∧
    (dataHandler_then this single).1.1 =
      match session_id (s_header single) with
      | Some t => with_sessionId t this
      | None => this
      end.

(** The loaders are configured as the constructor made them, and the
    single-call loader, which dispatches on every load, holds no queue. *)
Definition loaders_as_constructed (this : ZimbraBatchClient) : Prop :=
  DataLoader.batch (batchDataLoader this) = true ∧
  DataLoader.cache (batchDataLoader this) = true ∧
  DataLoader.batch (dataLoader this) = false ∧
  DataLoader.cache (dataLoader this) = true ∧
  DataLoader.queue (dataLoader this) = [].

(** Every call made by [dataHandler] serves exactly one queue entry. *)
Definition single_calls_serve_one (w : World) : Prop :=
  ∀ id f, in_flight w !! id = Some f → via f = Single →
          length (entries f) = 1.

(** The accumulation property with identity "by submission": whatever
    unscoped requests are submitted before the tick ends, the batch sent at
    the end of the tick lists the requests already queued followed by every
    one of the submissions, in order. *)
Definition every_submission_gets_a_position : Prop :=
  ∀ (w : World) (os : list JsonRequestOptions),
    reachable w →
    Forall (fun o => ¬ scoped o) os →
    os ≠ [] →
    since w (tick (run w (map Submit os))) =
      [BatchCall (next_call w)
         (batchDataHandler_request (client w)
            (DataLoader.keys (DataLoader.queue (batchDataLoader (client w)))
             ++ os))].

(** The call [dataHandler] makes for the one request [o]. *)
Definition single_call_for (w : World) (id : call) (o : JsonRequestOptions)
  : Event :=
  SingleCall id {| se_request := Some o;
                   se_sessionId := sessionId (client w);
                   se_origin := origin (client w) |}.

(** The single-call property with identity "by submission": every
    submission of an account-scoped request makes a transport call of its
    own. *)
Definition every_scoped_submission_makes_a_call : Prop :=
  ∀ (w : World) (o : JsonRequestOptions),
    reachable w →
    scoped o →
    since w (jsonRequest w o).1 = [single_call_for w (next_call w) o].

(** A client that has sent one scoped request. *)
Definition scoped_call_sent : World :=
  run (boot sample_client) [Submit (getFolderAs 3 "b")].

(** ** Further members of the client *)

(** [resolve]: [`${this.origin}${path}`]. *)
Definition resolve (this : ZimbraBatchClient) (path : string) : string :=
  String.append (origin this) path.

(** The fields of a client that only the constructor writes. *)
Definition same_configuration (a b : ZimbraBatchClient) : Prop :=
  origin a = origin b ∧
  soapPathname a = soapPathname b ∧
  notificationHandler a = notificationHandler b.

(** The origin an outgoing call carries. *)
Definition call_origin (ev : Event) : option string :=
  match ev with
  | BatchCall _ env => Some (be_origin env)
  | SingleCall _ env => Some (se_origin env)
  | _ => None
  end.

(** Every outgoing call of a stretch of log carries the origin [o]. *)
Definition calls_from (o : string) (evs : list Event) : Prop :=
  Forall (fun ev => ∀ o', call_origin ev = Some o' → o' = o) evs.

(** An outgoing call carries a session that is not the empty string. *)
Definition call_has_session (ev : Event) : Prop :=
  ∀ s, call_session ev = Some s → s ≠ EmptyString.

(** An outgoing call carries something to do: a batch call at least one
    request, a single call its request. *)
Definition call_has_request (ev : Event) : Prop :=
  match ev with
  | BatchCall _ env => be_requests env ≠ []
  | SingleCall _ env => is_Some (se_request env)
  | _ => True
  end.

(** The promise an event settles. *)
Definition delivered_promise (ev : Event) : option promise :=
  match ev with
  | Resolved p _ | Rejected p _ => Some p
  | _ => None
  end.

(** The promises a stretch of log settles, in order. *)
Definition delivered (evs : list Event) : list promise :=
  omap delivered_promise evs.

(** The promises of the entries a call serves. *)
Definition served (f : InFlight) : list promise :=
  map DataLoader.settle (entries f).

(** The promises whose transport call is awaiting its reply. *)
Definition awaiting (w : World) : list promise :=
  map_to_list (in_flight w) ≫= (fun kf => served kf.2).

(** The promises still in a loader's queue. *)
Definition queued (w : World) : list promise :=
  map DataLoader.settle (DataLoader.queue (batchDataLoader (client w))) ++
  map DataLoader.settle (DataLoader.queue (dataLoader (client w))).

(** Call numbers are handed out in order. *)
Definition calls_numbered (w : World) : Prop :=
  ∀ id, is_Some (in_flight w !! id) → id < next_call w.

(** An outgoing call made by the client [this] carries its origin and its
    session. *)
Definition sent_by (this : ZimbraBatchClient) (ev : Event) : Prop :=
  is_call ev = true →
  call_origin ev = Some (origin this) ∧
  call_session ev = Some (sessionId this).

(** Every promise handed out so far is in one place exactly: settled by
    the log, served by a call awaiting its reply, or waiting in a queue. *)
Definition accounted (w : World) : Prop :=
  delivered (log w) ++ awaiting w ++ queued w ≡ₚ seq 0 (next_promise w).

(** ** Request bodies

    The bodies the public methods build are object literals.  A JSON value
    is kept as a tree; an object is the list of its members in definition
    order. *)

#[local] Unset Elimination Schemes.
Inductive JSON :=
| JUndefined
| JBoolean (b : bool)
| JNumber (n : Z)
| JString (s : string)
| JArray (items : list JSON)
| JObject (members : list (string * JSON)).
#[local] Set Elimination Schemes.

(** Defining the property [k] of an object under construction: a property
    defined before keeps its place and takes the new value. *)
Fixpoint define (k : string) (v : JSON) (members : list (string * JSON))
  : list (string * JSON) :=
  match members with
  | [] => [(k, v)]
  | (k', v') :: rest =>
      if String.eqb k k' then (k, v) :: rest
      else (k', v') :: define k v rest
  end.

(** The object literal [{ k1: v1, k2: v2, ... }]. *)
Definition object (properties : list (string * JSON)) : JSON :=
  JObject (foldl (fun members kv => define kv.1 kv.2 members) [] properties).

(** [x.k] *)
Definition member (k : string) (x : JSON) : option JSON :=
  match x with
  | JObject members => snd <$> find (fun kv => String.eqb kv.1 k) members
  | _ => None
  end.

(** The property names of an object, in order. *)
Definition member_names (x : JSON) : list string :=
  match x with
  | JObject members => map fst members
  | _ => []
  end.

(** [...(c && { k: v })] inside an object literal: the property when the
    optional string [c] is truthy, nothing otherwise. *)
Definition when_truthy (c : option string) (properties : list (string * JSON))
  : list (string * JSON) :=
  if truthy c then properties else [].

(** The numbers a length limit can be, as [||] tells them apart: NaN, and
    the integers, zero with either sign being the integer 0.  Fractional
    and infinite limits are left out. *)
Inductive Number :=
| NaN
| Integer (n : Z).

(** The destructured argument of [getMessage]. *)
Record GetMessageOptions := {
  gm_id : string;
  gm_html : option bool;
  gm_raw : option bool;
  gm_headers : option (list string);
  gm_read : option bool;
  gm_max : option Number;
  gm_ridZ : option string;
}.

(** [html !== false && raw !== true ? 1 : 0] *)
Definition html_flag (html raw : option bool) : Z :=
  match html, raw with
  | Some false, _ => 0
  | _, Some true => 0
  | _, _ => 1
  end.

(** [max || 250000]: [undefined], NaN and 0 are falsy and give way to the
    default; any other number is kept. *)
Definition max_or_default (max : option Number) : Z :=
  match max with
  | Some (Integer n) => if Z.eqb n 0 then 250000 else n
  | Some NaN => 250000
  | None => 250000
  end.

(** The body of the request [getMessage] sends. *)
Definition getMessage_body (o : GetMessageOptions) : JSON :=
  object
    [("m"%string,
      object
        ([("id"%string, JString (gm_id o));
          ("html"%string, JNumber (html_flag (gm_html o) (gm_raw o)));
          ("header"%string,
           match gm_headers o with
           | Some headers =>
               JArray (map (fun n => object [("n"%string, JString n)]) headers)
           | None => JUndefined
           end);
          ("read"%string,
           match gm_read o with
           | Some true => JNumber 1
           | _ => JUndefined
           end);
          ("needExp"%string, JNumber 1);
          ("neuter"%string, JNumber 0);
          ("max"%string, JNumber (max_or_default (gm_max o)));
          ("raw"%string,
           JNumber match gm_raw o with
                   | Some true => 1
                   | _ => 0
                   end)]
         ++ when_truthy (gm_ridZ o)
              [("ridZ"%string, JString (default EmptyString (gm_ridZ o)))]))].

(** [{ ...x }]: the members of an object, copied. *)
Definition members_of (x : JSON) : list (string * JSON) :=
  match x with
  | JObject members => members
  | _ => []
  end.

(** [id || (ids || []).join(',')] in [action]. *)
Definition action_id (id : option string) (ids : option (list string))
  : string :=
  match id with
  | Some t =>
      if String.eqb t EmptyString
      then String.concat "," (default [] ids)
      else t
  | None => String.concat "," (default [] ids)
  end.

(** The body of the request [action] sends; [rest] stands for
    [denormalize(ActionOptionsEntity)(rest)], from [../normalize]. *)
Definition action_body (id : option string) (ids : option (list string))
    (rest : JSON) : JSON :=
  object
    [("action"%string,
      object ([("id"%string, JString (action_id id ids))] ++ members_of rest))].

(** The destructured argument of [login]. *)
Record LoginOptions := {
  username : string;
  password : option string;
  recoveryCode : option string;
}.

(** The body of the request [login] sends.  (The object the method first
    builds in its local [body] is not used afterwards.) *)
Definition login_body (o : LoginOptions) : JSON :=
  object
    ([("account"%string,
       object [("by"%string, JString "name");
               ("_content"%string, JString (username o))])]
     ++ when_truthy (password o)
          [("password"%string, JString (default EmptyString (password o)))]
     ++ when_truthy (recoveryCode o)
          [("recoveryCode"%string,
            object [("verifyAccount"%string, JBoolean true);
                    ("_content"%string,
                     JString (default EmptyString (recoveryCode o)))])]).

(** ** Requests made from object literals

    Every public method submits an object literal, [this.jsonRequest({ ... })]:
    evaluating the literal makes a new object, at an address no object had
    before. *)

(** The properties of a request literal. *)
Record Literal := {
  lit_name : string;
  lit_namespace : option string;
  lit_body : option RequestBody;
  lit_accountName : option string;
}.

(** The object a literal evaluates to when [a] is the next free address. *)
Definition at_address (a : ref) (l : Literal) : JsonRequestOptions :=
  {| oid := a; name := lit_name l; namespace := lit_namespace l;
     body := lit_body l; accountName := lit_accountName l |}.

(** A client together with the next free address. *)
Record Runtime := {
  world : World;
  heap_top : ref;
}.

(** [this.jsonRequest({ ... })] *)
Definition request (l : Literal) (r : Runtime) : Runtime * promise :=
  let '(w', p) := jsonRequest (world r) (at_address (heap_top r) l) in
  ({| world := w'; heap_top := S (heap_top r) |}, p).

(** [xs.map(x => this.jsonRequest({ ... }))] *)
Fixpoint request_each {A : Type} (build : A → Literal) (xs : list A)
    (r : Runtime) : Runtime * list promise :=
  match xs with
  | [] => (r, [])
  | x :: rest =>
      let '(r1, p) := request (build x) r in
      let '(r2, ps) := request_each build rest r1 in
      (r2, p :: ps)
  end.

(** The objects [request_each] makes, in order. *)
Definition objects_of {A : Type} (build : A → Literal) (xs : list A)
    (r : Runtime) : list JsonRequestOptions :=
  imap (fun i x => at_address (heap_top r + i) (build x)) xs.

(** Every object a loader remembers was made before: its address is below
    the next free one. *)
Definition allocated (r : Runtime) : Prop :=
  ∀ which k,
    is_Some (DataLoader.promiseCache (loader which (client (world r))) !! k) →
    k < heap_top r.

(** A runtime whose loaders both remember an object: a [NoOp] request made
    from a literal and sent in a batch, and a scoped request made from a
    literal and sent alone. *)
Definition busy_runtime : Runtime :=
  let r0 := {| world := boot sample_client; heap_top := 0 |} in
  let r1 := (request {| lit_name := "NoOp"; lit_namespace := None;
                        lit_body := None; lit_accountName := None |} r0).1 in
  let r2 := (request {| lit_name := "GetFolder"; lit_namespace := None;
                        lit_body := Some "{}"%string;
                        lit_accountName := Some "b"%string |} r1).1 in
  {| world := tick (world r2); heap_top := heap_top r2 |}.

Section Methods.

(** The body object as the payload the request carries. *)
Variable payload : JSON → RequestBody.

(** [Namespace.Account], from [../request/types]. *)
Variable Namespace_Account : string.

(** [denormalize(CalendarItemCreateModifyRequest)], from [../normalize]. *)
Variable CalendarItemInput : Type.
Variable denormalize_CalendarItemCreateModifyRequest : CalendarItemInput → JSON.

(** [noop] *)
Definition noop : Runtime → Runtime * promise :=
  request {| lit_name := "NoOp"; lit_namespace := None;
             lit_body := None; lit_accountName := None |}.

(** The literal of [login]. *)
Definition login_literal (o : LoginOptions) : Literal :=
  {| lit_name := "Auth"; lit_namespace := Some Namespace_Account;
     lit_body := Some (payload (login_body o)); lit_accountName := None |}.

Definition login (o : LoginOptions) : Runtime → Runtime * promise :=
  request (login_literal o).

(** The literal of [createAppointment]. *)
Definition createAppointment_literal (account : string)
    (appointment : CalendarItemInput) : Literal :=
  {| lit_name := "CreateAppointment"; lit_namespace := None;
     lit_body :=
       Some (payload
               (object (members_of
                  (denormalize_CalendarItemCreateModifyRequest appointment))));
     lit_accountName := Some account |}.

Definition createAppointment (account : string)
    (appointment : CalendarItemInput) : Runtime → Runtime * promise :=
  request (createAppointment_literal account appointment).

(** The literal of [createAppointmentException]. *)
Definition createAppointmentException_literal (account : string)
    (appointment : CalendarItemInput) : Literal :=
  {| lit_name := "CreateAppointmentException"; lit_namespace := None;
     lit_body :=
       Some (payload
               (object (members_of
                  (denormalize_CalendarItemCreateModifyRequest appointment))));
     lit_accountName := Some account |}.

Definition createAppointmentException (account : string)
    (appointment : CalendarItemInput) : Runtime → Runtime * promise :=
  request (createAppointmentException_literal account appointment).

(** The literal of [modifyAppointment]. *)
Definition modifyAppointment_literal (account : string)
    (appointment : CalendarItemInput) : Literal :=
  {| lit_name := "ModifyAppointment"; lit_namespace := None;
     lit_body :=
       Some (payload
               (object (members_of
                  (denormalize_CalendarItemCreateModifyRequest appointment))));
     lit_accountName := Some account |}.

Definition modifyAppointment (account : string)
    (appointment : CalendarItemInput) : Runtime → Runtime * promise :=
  request (modifyAppointment_literal account appointment).

(** The literal [shareInfos] makes for one address. *)
Definition shareInfos_literal (address : string) : Literal :=
  {| lit_name := "GetShareInfo"; lit_namespace := None;
     lit_body :=
       Some (payload
               (object
                  [("includeSelf"%string, JNumber 0);
                   ("owner"%string,
                    object [("by"%string, JString "name");
                            ("_content"%string, JString address)]);
                   ("_jsns"%string, JString "urn:zimbraAccount")]));
     lit_accountName := None |}.

(** [shareInfos], up to the [Promise.all] around the promises it collects
    (see [Promise_all]). *)
Definition shareInfos (addresses : list string)
  : Runtime → Runtime * list promise :=
  request_each shareInfos_literal addresses.

End Methods.

(** [Promise.all(ps)] read off a stretch of log: rejected with the error of
    the first of the promises to be rejected, resolved with the values in
    the order of [ps] once each is resolved, pending otherwise. *)
Definition first_rejection (ps : list promise) (evs : list Event)
  : option Error :=
  head (omap (fun ev => match ev with
                        | Rejected p e => if decide (p ∈ ps) then Some e else None
                        | _ => None
                        end) evs).

Definition resolution (p : promise) (evs : list Event) : option RequestBody :=
  head (omap (fun ev => match ev with
                        | Resolved p' b => if decide (p' = p) then Some b else None
                        | _ => None
                        end) evs).

Definition Promise_all (ps : list promise) (evs : list Event)
  : option (Error + list RequestBody) :=
  match first_rejection ps evs with
  | Some e => Some (inl e)
  | None => inr <$> mapM (fun p => resolution p evs) ps
  end.

(** The first error value among the items of a reply. *)
Definition first_error (items : list BatchItem) : option Error :=
  head (omap (fun r => match r with
                       | ItemError e => Some e
                       | ItemReply _ => None
                       end) items).

(** The bodies of the items of a reply that are no error values. *)
Definition bodies (items : list BatchItem) : list RequestBody :=
  omap (fun r => match r with
                 | ItemError _ => None
                 | ItemReply b => Some b
                 end) items.

(** ** Basic facts *)

Lemma truthy_spec (s : option string) :
  truthy s = true ↔ ∃ t, s = Some t ∧ t ≠ EmptyString.
Proof.
  destruct s as [t|]; simpl.
  - destruct (String.eqb_spec t EmptyString); simpl; split.
    + discriminate.
    + intros (t' & [= <-] & Hne). contradiction.
    + eauto.
    + reflexivity.
  - split; [discriminate | intros (t & [=] & _)].
Qed.

Lemma since_app (w w' : World) (evs : list Event) :
  log w' = log w ++ evs → since w w' = evs.
Proof. intros H. unfold since. rewrite H. apply drop_app_length. Qed.

Lemma since_refl (w : World) : since w w = [].
Proof. apply since_app. by rewrite app_nil_r. Qed.

Lemma assign_session_spec (token : option string) (this : ZimbraBatchClient) :
  assign_session token this =
    match token with
    | Some t =>
        if decide (t = EmptyString) then (this, [])
        else (with_sessionId t this, [SessionSet t])
    | None => (this, [])
    end.
Proof.
  destruct token as [t|]; [|done]. unfold assign_session, truthy.
  destruct (String.eqb_spec t EmptyString); case_decide; done.
Qed.

Lemma loader_with_loader (which : Loader) l this :
  loader which (with_loader which l this) = l.
Proof. by destruct which. Qed.

Lemma sessionId_with_loader (which : Loader) l this :
  sessionId (with_loader which l this) = sessionId this.
Proof. by destruct which. Qed.

Lemma complete_in_flight (id : call) (o : TransportOutcome) (w : World)
    (f : InFlight) this1 evs outcome :
  in_flight w !! id = Some f →
  handler_settled (via f) (client w) o = Some (this1, evs, outcome) →
  complete id o w =
    let '(l', settled) :=
      DataLoader.settle_batch (loader (via f) this1) (entries f) outcome in
    {| client := with_loader (via f) l' this1;
       next_promise := next_promise w;
       next_call := next_call w;
       in_flight := delete id (in_flight w);
       log := log w ++ evs ++ settled |}.
Proof. intros Hf Hh. unfold complete. by rewrite Hf, Hh. Qed.

Lemma batchDataHandler_then_eq (this : ZimbraBatchClient)
    (response : BatchRequestResponse) :
  batchDataHandler_then this response =
    let a := assign_session (session_id (b_header response)) this in
    (a.1, a.2 ++ relay_notification (head (notify (b_header response))) a.1,
     map item_value (requests response)).
Proof. unfold batchDataHandler_then. by destruct (assign_session _ _). Qed.

Lemma dataHandler_then_eq (this : ZimbraBatchClient)
    (response : RequestResponse) :
  dataHandler_then this response =
    let a := assign_session (session_id (s_header response)) this in
    (a.1, a.2 ++ relay_notification (head (notify (s_header response))) a.1,
     [item_value (s_item response)]).
Proof.
  unfold dataHandler_then. destruct (assign_session _ _).
  by destruct (s_item response).
Qed.


Lemma failedDispatch_events l (q : list DataLoader.QueueEntry) (e : Error) :
  (DataLoader.failedDispatch l q e).2 =
    map (fun entry => Rejected (DataLoader.settle entry) e) q.
Proof. done. Qed.

Lemma settle_batch_length l (q : list DataLoader.QueueEntry)
    (outcome : Error + list Value) :
  length (DataLoader.settle_batch l q outcome).2 = length q.
Proof.
  unfold DataLoader.settle_batch. destruct outcome as [e|values].
  - rewrite failedDispatch_events. by rewrite length_map.
  - case_decide as Hlen.
    + simpl. rewrite length_zip_with.
      unfold DataLoader.keys in Hlen. rewrite length_map in Hlen. lia.
    + rewrite failedDispatch_events. by rewrite length_map.
Qed.

(** ** What a callback threw *)

Lemma assign_session_handler (token : option string)
    (this : ZimbraBatchClient) :
  notificationHandler (assign_session token this).1 = notificationHandler this.
Proof.
  rewrite assign_session_spec.
  destruct token as [t|]; [case_decide|]; done.
Qed.

Lemma thrown_updates (token : option string) (first : option Notification)
    (this : ZimbraBatchClient) :
  let a := assign_session token this in
  thrown (a.2 ++ relay_notification first a.1) =
    match first, notificationHandler this with
    | Some n, Some h => handler_throws h n
    | _, _ => None
    end.
Proof.
  simpl. unfold relay_notification. rewrite assign_session_handler.
  rewrite assign_session_spec.
  destruct token as [t|]; [case_decide|];
    destruct first as [n|], (notificationHandler this) as [h|]; simpl;
    try done; by destruct (handler_throws h n).
Qed.

Lemma batch_callback_settled (this : ZimbraBatchClient)
    (response : BatchRequestResponse) :
  handler_returns this (b_header response) →
  handler_settled Batching this (BatchReplied response) =
    Some ((batchDataHandler_then this response).1.1,
          (batchDataHandler_then this response).1.2,
          inr (map item_value (requests response))).
Proof.
  intros Hret. simpl. rewrite batchDataHandler_then_eq. simpl.
  unfold callback_settled. rewrite thrown_updates.
  destruct (head (notify (b_header response))) as [n|] eqn:Hn; [|done].
  destruct (notificationHandler this) as [h|] eqn:Hh; [|done].
  by rewrite (Hret n h).
Qed.

(** ** Demultiplexing a batch reply *)




(** The handler of the sample client returns whatever it is called with. *)
Example the_sample_handler_returns (h : ResponseHeader) :
  handler_returns (client three_in_flight) h.
Proof.
  intros n handler Hn Hh. vm_compute in Hh. by injection Hh as <-.
Qed.


(** The same completion, run: the first and the last caller are rejected,
    the middle one is resolved. *)
Example mixed_reply_settles_each_caller :
  filter is_delivery
    (since three_in_flight
       (complete 0 (BatchReplied mixed_reply) three_in_flight)) =
    [Rejected 0 (Fault "no such folder"); Resolved 1 "inbox";
     Rejected 2 (Fault "permission denied")].
Proof. vm_compute. reflexivity. Qed.

(** ** Routing *)

Lemma load_other_loader (which other : Loader) (w : World)
    (k : JsonRequestOptions) :
  which ≠ other →
  loader other (client (load which w k).1) = loader other (client w).
Proof.
  intros Hne. unfold load.
  destruct (DataLoader.cached _ _); [done|].
  case_decide; [destruct (DataLoader.batch _)|];
    destruct which, other; done.
Qed.

(** C2.  [jsonRequest] hands a request to the single-call loader when its
    options carry a non-empty [accountName] and to the batch loader in every
    other case; the choice is made from the options alone, in whatever state
    the client and its loaders are, and the loader not chosen is left as it
    was. *)
Theorem jsonRequest_routes_by_accountName (w : World)
    (options : JsonRequestOptions) :
  (scoped options ∧
   jsonRequest w options = load Single w options ∧
   batchDataLoader (client (jsonRequest w options).1) = batchDataLoader (client w))
  ∨
  (¬ scoped options ∧
   jsonRequest w options = load Batching w options ∧
   dataLoader (client (jsonRequest w options).1) = dataLoader (client w)).
Proof.
  unfold jsonRequest, scoped.
  destruct (truthy (accountName options)) eqn:Ht.
  - left. split; [by apply truthy_spec|]. split; [done|].
    by apply (load_other_loader Single Batching).
  - right. split.
    + intros H. apply truthy_spec in H. congruence.
    + split; [done|]. by apply (load_other_loader Batching Single).
Qed.

(** ** Transport failure *)

(** C3.  When the transport call of a batch rejects, the handler's callback
    does not run: nothing but rejections is logged, one per caller of the
    batch in queue order, each with the transport's failure; no caller is
    resolved and the session is not touched. *)
Theorem transport_failure_rejects_every_caller (w : World) (id : call)
    (q : list DataLoader.QueueEntry) (e : Error) :
  in_flight w !! id = Some {| via := Batching; entries := q |} →
  let w' := complete id (Failed e) w in
  since w w' = map (fun entry => Rejected (DataLoader.settle entry) e) q ∧
  (∀ entry, entry ∈ q → Rejected (DataLoader.settle entry) e ∈ since w w') ∧
  (∀ p b, Resolved p b ∉ since w w') ∧
  sessionId (client w') = sessionId (client w).
Proof.
  intros Hf w'.
  assert (Hw : w' =
    {| client := with_loader Batching
         (DataLoader.failedDispatch (batchDataLoader (client w)) q e).1 (client w);
       next_promise := next_promise w; next_call := next_call w;
       in_flight := delete id (in_flight w);
       log := log w ++ map (fun entry => Rejected (DataLoader.settle entry) e) q |}).
  { unfold w'. by rewrite (complete_in_flight id _ w _ (client w) [] (inl e) Hf). }
  assert (Hs : since w w' = map (fun entry => Rejected (DataLoader.settle entry) e) q).
  { apply since_app. by rewrite Hw. }
  rewrite Hs. split; [done|]. split; [|split].
  - intros entry Hin.
    apply (list_elem_of_fmap_2 (fun entry => Rejected (DataLoader.settle entry) e)), Hin.
  - intros p b (entry & [=] & _)%list_elem_of_fmap.
  - by rewrite Hw.
Qed.

Lemma transport_failure_rejects_every_caller_witness :
  let e := Fault "network" in
  let w' := complete 0 (Failed e) three_in_flight in
  since three_in_flight w' =
    map (fun entry => Rejected (DataLoader.settle entry) e) three_entries ∧
  (∀ entry, entry ∈ three_entries →
     Rejected (DataLoader.settle entry) e ∈ since three_in_flight w') ∧
  (∀ p b, Resolved p b ∉ since three_in_flight w') ∧
  sessionId (client w') = sessionId (client three_in_flight).
Proof.
  apply (transport_failure_rejects_every_caller three_in_flight 0
           three_entries (Fault "network")).
  vm_compute. reflexivity.
Defined.

(** ** Order of effects on completion *)

Lemma settle_batch_deliveries l (q : list DataLoader.QueueEntry)
    (outcome : Error + list Value) :
  Forall (fun ev => is_delivery ev = true) (DataLoader.settle_batch l q outcome).2.
Proof.
  unfold DataLoader.settle_batch.
  assert (Hfail : ∀ e, Forall (fun ev => is_delivery ev = true)
                         (DataLoader.failedDispatch l q e).2).
  { intros e. rewrite failedDispatch_events. by apply Forall_fmap, Forall_true. }
  destruct outcome as [e|values]; [done|].
  case_decide; [|done]. simpl.
  apply Forall_forall. intros ev Hev.
  apply elem_of_lookup_zip_with in Hev as (i & entry & v & -> & _ & _).
  by destruct v.
Qed.

Lemma reply_updates (token : option string) (first : option Notification)
    (this : ZimbraBatchClient) :
  let a := assign_session token this in
  let updates := a.2 ++ relay_notification first a.1 in
  Forall (fun ev => is_delivery ev = false) updates ∧
  length (filter is_session_set updates) ≤ 1 ∧
  length (filter is_notified updates) ≤ 1 ∧
  replay_session (sessionId this) updates = sessionId a.1 ∧
  (∀ t, token = Some t → t ≠ EmptyString →
     sessionId a.1 = t ∧ SessionSet t ∈ updates) ∧
  (∀ n h, first = Some n → notificationHandler this = Some h →
     Notified h n ∈ updates).
Proof.
  rewrite assign_session_spec. unfold relay_notification.
  destruct token as [t|]; [case_decide|];
    destruct first as [n|], (notificationHandler this) as [h|] eqn:Hh;
    simpl; try rewrite Hh; simpl;
    try destruct (handler_throws h n) as [thrown_error|].
  all: split; [repeat constructor|].
  all: split; [simpl; lia|].
  all: split; [simpl; lia|].
  all: split; [done|].
  all: split; [intros t' ? ?; simplify_eq; first [done|split; [done|set_solver]]|].
  all: intros n' h' ? ?; simplify_eq; set_solver.
Qed.

(** C4.  When the transport answers a batch call, everything the completion
    logs splits into the handler's own effects (at most one write of the
    session, at most one invocation of the notification handler) followed by
    the deliveries to the callers: no delivery comes before a write or a
    notification, the session a caller sees at its delivery is the one the
    client keeps afterwards, and that is the reply's token when the reply
    carries a non-empty one. *)
Theorem session_and_notification_precede_delivery (w : World) (id : call)
    (q : list DataLoader.QueueEntry) (response : BatchRequestResponse) :
  in_flight w !! id = Some {| via := Batching; entries := q |} →
  let w' := complete id (BatchReplied response) w in
  ∃ updates deliveries,
    since w w' = updates ++ deliveries ∧
    Forall (fun ev => is_delivery ev = false) updates ∧
    Forall (fun ev => is_delivery ev = true) deliveries ∧
    length deliveries = length q ∧
    length (filter is_session_set updates) ≤ 1 ∧
    length (filter is_notified updates) ≤ 1 ∧
    replay_session (sessionId (client w)) updates = sessionId (client w') ∧
    (∀ t, session_id (b_header response) = Some t → t ≠ EmptyString →
       sessionId (client w') = t ∧ SessionSet t ∈ updates) ∧
    (∀ n h, head (notify (b_header response)) = Some n →
       notificationHandler (client w) = Some h → Notified h n ∈ updates).
Proof.
  intros Hf w'.
  pose proof (reply_updates (session_id (b_header response))
                (head (notify (b_header response))) (client w)) as Hup.
  pose proof (batchDataHandler_then_eq (client w) response) as Hthen.
  simpl in Hup, Hthen.
  set (a := assign_session (session_id (b_header response)) (client w)) in *.
  set (updates := a.2 ++ relay_notification (head (notify (b_header response))) a.1) in *.
  set (values := map item_value (requests response)) in *.
  set (outcome := callback_settled updates values).
  pose proof (settle_batch_deliveries (batchDataLoader a.1) q outcome) as Hdel.
  pose proof (settle_batch_length (batchDataLoader a.1) q outcome) as Hlen.
  assert (Hw : w' =
    {| client := with_loader Batching
         (DataLoader.settle_batch (batchDataLoader a.1) q outcome).1 a.1;
       next_promise := next_promise w; next_call := next_call w;
       in_flight := delete id (in_flight w);
       log := log w ++ updates ++
              (DataLoader.settle_batch (batchDataLoader a.1) q outcome).2 |}).
  { unfold w'.
    rewrite (complete_in_flight id _ w _ a.1 updates outcome Hf).
    - cbn [via entries loader].
      by destruct (DataLoader.settle_batch _ _ _).
    - simpl. by rewrite Hthen. }
  exists updates, (DataLoader.settle_batch (batchDataLoader a.1) q outcome).2.
  destruct Hup as (Hu1 & Hu2 & Hu3 & Hu4 & Hu5 & Hu6).
  split; [apply since_app; by rewrite Hw|].
  split; [done|]. split; [done|]. split; [done|].
  split; [done|]. split; [done|].
  rewrite Hw. simpl. done.
Qed.

Lemma session_and_notification_precede_delivery_witness :
  let w' := complete 0 (BatchReplied mixed_reply) three_in_flight in
  ∃ updates deliveries,
    since three_in_flight w' = updates ++ deliveries ∧
    Forall (fun ev => is_delivery ev = false) updates ∧
    Forall (fun ev => is_delivery ev = true) deliveries ∧
    length deliveries = length three_entries ∧
    length (filter is_session_set updates) ≤ 1 ∧
    length (filter is_notified updates) ≤ 1 ∧
    replay_session (sessionId (client three_in_flight)) updates =
      sessionId (client w') ∧
    (∀ t, session_id (b_header mixed_reply) = Some t → t ≠ EmptyString →
       sessionId (client w') = t ∧ SessionSet t ∈ updates) ∧
    (∀ n h, head (notify (b_header mixed_reply)) = Some n →
       notificationHandler (client three_in_flight) = Some h →
       Notified h n ∈ updates).
Proof.
  apply (session_and_notification_precede_delivery three_in_flight 0
           three_entries mixed_reply).
  vm_compute. reflexivity.
Defined.

(** The same completion, run: the write and the notification come first. *)
Example mixed_reply_effects_in_order :
  since three_in_flight
    (complete 0 (BatchReplied mixed_reply) three_in_flight) =
    [SessionSet "s2"; Notified (quiet_handler 7) {| notification_content := "first" |};
     Rejected 0 (Fault "no such folder"); Resolved 1 "inbox";
     Rejected 2 (Fault "permission denied")].
Proof. vm_compute. reflexivity. Qed.

(** ** The session across calls *)

Lemma dispatched_from_refl (w : World) : dispatched_from w w.
Proof.
  exists []. rewrite app_nil_r. repeat split; by constructor.
Qed.

Lemma dispatched_from_trans (w1 w2 w3 : World) :
  dispatched_from w1 w2 → dispatched_from w2 w3 → dispatched_from w1 w3.
Proof.
  intros (e1 & Hl1 & Hs1 & Hc1 & Hk1) (e2 & Hl2 & Hs2 & Hc2 & Hk2).
  exists (e1 ++ e2). rewrite Hl2, Hl1, Hs2, Hs1, app_assoc.
  repeat split; [by apply Forall_app|].
  apply Forall_app. split; [done|]. by rewrite <- Hs1.
Qed.

Lemma dispatchQueue_dispatched (which : Loader) (w : World) :
  dispatched_from w (dispatchQueue which w).
Proof.
  eexists. split; [reflexivity|]. simpl.
  rewrite sessionId_with_loader. split; [done|].
  split; constructor; try by constructor.
  - by destruct which.
  - intros s'. destruct which; simpl; congruence.
Qed.

Lemma load_dispatched (which : Loader) (w : World) (k : JsonRequestOptions) :
  dispatched_from w (load which w k).1.
Proof.
  unfold load. destruct (DataLoader.cached _ _); [apply dispatched_from_refl|].
  set (w1 := {| client := _ |}).
  assert (H1 : dispatched_from w w1).
  { exists []. simpl. rewrite app_nil_r, sessionId_with_loader.
    repeat split; by constructor. }
  simpl. case_decide; [destruct (DataLoader.batch _)|]; try done.
  eapply dispatched_from_trans; [done|apply dispatchQueue_dispatched].
Qed.

Lemma run_scheduled_dispatched (which : Loader) (w : World) :
  dispatched_from w (run_scheduled which w).
Proof.
  unfold run_scheduled.
  destruct (DataLoader.batch _); [|apply dispatched_from_refl].
  destruct (DataLoader.queue _);
    [apply dispatched_from_refl|apply dispatchQueue_dispatched].
Qed.

Lemma step_dispatched (w : World) (a : Action) :
  is_reply a = false → dispatched_from w (step w a).
Proof.
  destruct a as [options| |id o]; simpl; [| |done]; intros _.
  - unfold jsonRequest. destruct (truthy _); apply load_dispatched.
  - unfold tick. eapply dispatched_from_trans; apply run_scheduled_dispatched.
Qed.

Lemma run_dispatched (later : list Action) (w : World) :
  Forall (fun a => is_reply a = false) later →
  dispatched_from w (run w later).
Proof.
  revert w. induction later as [|a later IH]; intros w Hl; simpl.
  - apply dispatched_from_refl.
  - apply Forall_cons in Hl as [Ha Hl].
    eapply dispatched_from_trans; [by apply step_dispatched|by apply IH].
Qed.

Lemma complete_session (id : call) (o : TransportOutcome) (w : World)
    (f : InFlight) (h : ResponseHeader) :
  in_flight w !! id = Some f →
  answers (via f) o = true →
  reply_header o = Some h →
  sessionId (client (complete id o w)) =
    sessionId (assign_session (session_id h) (client w)).1.
Proof.
  intros Hf Ha Hh.
  assert (Hset : ∀ this1 evs outcome,
    handler_settled (via f) (client w) o = Some (this1, evs, outcome) →
    sessionId (client (complete id o w)) = sessionId this1).
  { intros this1 evs outcome Hs.
    rewrite (complete_in_flight id o w f this1 evs outcome Hf Hs).
    destruct (DataLoader.settle_batch _ _ _). simpl.
    apply sessionId_with_loader. }
  destruct o as [e|r|r], (via f) eqn:Hvia; simplify_eq/=.
  - eapply Hset. by rewrite batchDataHandler_then_eq.
  - eapply Hset. by rewrite dataHandler_then_eq.
Qed.

Lemma reply_updates_are_no_calls (token : option string)
    (first : option Notification) (this : ZimbraBatchClient) :
  let a := assign_session token this in
  Forall (fun ev => is_call ev = false)
    (a.2 ++ relay_notification first a.1).
Proof.
  rewrite assign_session_spec. unfold relay_notification.
  destruct token as [t|]; [case_decide|];
    destruct first as [n|], (notificationHandler this) as [h|] eqn:Hh;
    simpl; try rewrite Hh; simpl;
    try destruct (handler_throws h n); by repeat constructor.
Qed.

Lemma handler_settled_makes_no_call (which : Loader)
    (this this1 : ZimbraBatchClient) (o : TransportOutcome) evs outcome :
  handler_settled which this o = Some (this1, evs, outcome) →
  Forall (fun ev => is_call ev = false) evs.
Proof.
  destruct o as [e|r|r], which; simpl; try done.
  - by intros [= _ <- _].
  - by intros [= _ <- _].
  - rewrite batchDataHandler_then_eq. simpl. intros [= _ <- _].
    apply reply_updates_are_no_calls.
  - rewrite dataHandler_then_eq. simpl. intros [= _ <- _].
    apply reply_updates_are_no_calls.
Qed.

Lemma complete_sends (id : call) (o : TransportOutcome) (w : World) :
  ∃ evs, log (complete id o w) = log w ++ evs ∧
         Forall (fun ev => is_call ev = false) evs.
Proof.
  unfold complete.
  destruct (in_flight w !! id) as [f|]; [|exists []; by rewrite app_nil_r].
  destruct (handler_settled _ _ _) as [[[this1 evs] outcome]|] eqn:Hh;
    [|exists []; by rewrite app_nil_r].
  pose proof (settle_batch_deliveries (loader (via f) this1) (entries f) outcome)
    as Hdel.
  destruct (DataLoader.settle_batch _ _ _) as [l' settled]. simpl in *.
  exists (evs ++ settled). split; [done|]. apply Forall_app. split.
  - by eapply handler_settled_makes_no_call.
  - eapply Forall_impl; [exact Hdel|]. by intros [].
Qed.

Lemma replay_session_app (s : string) (e1 e2 : list Event) :
  replay_session s (e1 ++ e2) = replay_session (replay_session s e1) e2.
Proof. apply foldl_app. Qed.

Lemma replay_session_no_write (evs : list Event) (s : string) :
  Forall (fun ev => is_session_set ev = false) evs → replay_session s evs = s.
Proof.
  induction 1 as [|ev evs Hev _ IH]; [done|].
  change (replay_session (replay_session s [ev]) evs = s).
  by destruct ev.
Qed.

Lemma calls_follow_writes_app (e1 e2 : list Event) (s : string) :
  calls_follow_writes s e1 →
  calls_follow_writes (replay_session s e1) e2 →
  calls_follow_writes s (e1 ++ e2).
Proof.
  revert s. induction e1 as [|ev e1 IH]; intros s H1 H2; [done|].
  destruct H1 as [Hev H1]. split; [done|]. by apply IH.
Qed.

Lemma calls_follow_writes_split (pre post : list Event) (ev : Event)
    (s s' : string) :
  calls_follow_writes s (pre ++ ev :: post) →
  call_session ev = Some s' →
  s' = replay_session s pre.
Proof.
  revert s. induction pre as [|ev0 pre IH]; intros s H Hev.
  - destruct H as [H _]. by apply H.
  - destruct H as [_ H]. by apply (IH _ H).
Qed.

Lemma calls_follow_writes_no_call (evs : list Event) (s : string) :
  Forall (fun ev => is_call ev = false) evs → calls_follow_writes s evs.
Proof.
  intros H. revert s. induction H as [|ev evs Hev _ IH]; intros s; [done|].
  split; [|apply IH]. intros s'. by destruct ev.
Qed.

Lemma calls_are_no_writes (evs : list Event) :
  Forall (fun ev => is_call ev = true) evs →
  Forall (fun ev => is_session_set ev = false) evs.
Proof. intros H. eapply Forall_impl; [exact H|]. by intros []. Qed.

Lemma deliveries_are_no_writes (evs : list Event) :
  Forall (fun ev => is_delivery ev = true) evs →
  Forall (fun ev => is_session_set ev = false) evs.
Proof. intros H. eapply Forall_impl; [exact H|]. by intros []. Qed.

Lemma replayed_from_refl (w : World) : replayed_from w w.
Proof. exists []. by rewrite app_nil_r. Qed.

Lemma replayed_from_trans (w1 w2 w3 : World) :
  replayed_from w1 w2 → replayed_from w2 w3 → replayed_from w1 w3.
Proof.
  intros (e1 & Hl1 & Hs1 & Hc1) (e2 & Hl2 & Hs2 & Hc2).
  exists (e1 ++ e2). rewrite Hl2, Hl1, Hs2, Hs1, app_assoc.
  split; [done|]. split; [by rewrite replay_session_app|].
  apply calls_follow_writes_app; [done|]. by rewrite <- Hs1.
Qed.

Lemma dispatched_replayed (w w' : World) :
  dispatched_from w w' → replayed_from w w'.
Proof.
  intros (evs & Hlog & Hs & Hcalls & Hcarry). exists evs.
  split; [done|]. split.
  - rewrite replay_session_no_write; [done|by apply calls_are_no_writes].
  - clear Hlog. revert Hcarry Hcalls. generalize (sessionId (client w)) as s.
    induction evs as [|ev evs IH]; intros s Hcarry Hcalls; [done|].
    apply Forall_cons in Hcarry as [Hev Hcarry].
    apply Forall_cons in Hcalls as [Hcall Hcalls].
    split; [done|].
    replace (replay_session s [ev]) with s; [by apply IH|].
    by destruct ev.
Qed.

Lemma handler_settled_replays (which : Loader)
    (this this1 : ZimbraBatchClient) (o : TransportOutcome) evs outcome :
  handler_settled which this o = Some (this1, evs, outcome) →
  sessionId this1 = replay_session (sessionId this) evs.
Proof.
  destruct o as [e|r|r], which; simpl; try done.
  - by intros [= <- <- _].
  - by intros [= <- <- _].
  - rewrite batchDataHandler_then_eq. simpl. intros [= <- <- _].
    symmetry.
    apply (reply_updates (session_id (b_header r)) (head (notify (b_header r)))).
  - rewrite dataHandler_then_eq. simpl. intros [= <- <- _].
    symmetry.
    apply (reply_updates (session_id (s_header r)) (head (notify (s_header r)))).
Qed.

Lemma complete_replayed (id : call) (o : TransportOutcome) (w : World) :
  replayed_from w (complete id o w).
Proof.
  unfold complete.
  destruct (in_flight w !! id) as [f|]; [|apply replayed_from_refl].
  destruct (handler_settled _ _ _) as [[[this1 hevs] outcome]|] eqn:Hh;
    [|apply replayed_from_refl].
  pose proof (settle_batch_deliveries (loader (via f) this1) (entries f) outcome)
    as Hdel.
  destruct (DataLoader.settle_batch _ _ _) as [l' settled].
  exists (hevs ++ settled). split; [done|]. split.
  - cbn [client]. rewrite sessionId_with_loader, replay_session_app.
    rewrite (replay_session_no_write settled);
      [|by apply deliveries_are_no_writes].
    by eapply handler_settled_replays.
  - apply calls_follow_writes_no_call, Forall_app. split.
    + by eapply handler_settled_makes_no_call.
    + eapply Forall_impl; [exact Hdel|]. by intros [].
Qed.

Lemma step_replayed (w : World) (a : Action) : replayed_from w (step w a).
Proof.
  destruct a as [options| |id o].
  - by apply dispatched_replayed, step_dispatched.
  - by apply dispatched_replayed, step_dispatched.
  - apply complete_replayed.
Qed.

Lemma run_replayed (later : list Action) (w : World) :
  replayed_from w (run w later).
Proof.
  revert w. induction later as [|a later IH]; intros w; simpl.
  - apply replayed_from_refl.
  - eapply replayed_from_trans; [apply step_replayed|apply IH].
Qed.

(** C5, amended.  After the completion of a call whose reply carries a
    non-empty session token [t], the client's session is [t].  Whatever
    the client does next, every transport call it dispatches carries the
    session as the writes logged since that completion have left it: the
    token [t] itself when no completion in between has written another,
    and otherwise the token of the last completion that wrote one.  In
    particular every call dispatched before the next completion
    carries [t]. *)
Theorem nonempty_token_reaches_next_call (w : World) (id : call)
    (f : InFlight) (o : TransportOutcome) (h : ResponseHeader) (t : string)
    (later : list Action) :
  in_flight w !! id = Some f →
  answers (via f) o = true →
  reply_header o = Some h →
  session_id h = Some t →
  t ≠ EmptyString →
  let w1 := complete id o w in
  sessionId (client w1) = t ∧
  (∀ pre ev post s',
     since w1 (run w1 later) = pre ++ ev :: post →
     call_session ev = Some s' →
     s' = replay_session t pre ∧
     (Forall (fun ev' => is_session_set ev' = false) pre → s' = t)) ∧
  (Forall (fun a => is_reply a = false) later →
   calls_carry t (since w1 (run w1 later))).
Proof.
  intros Hf Ha Hh Ht Hne w1.
  assert (Hs : sessionId (client w1) = t).
  { unfold w1.
    rewrite (complete_session id o w f h Hf Ha Hh), Ht, assign_session_spec.
    by rewrite decide_False. }
  split; [done|]. split.
  - intros pre ev post s' Hsplit Hev.
    destruct (run_replayed later w1) as (evs & Hlog & _ & Hfollow).
    rewrite (since_app _ _ _ Hlog) in Hsplit. rewrite Hs, Hsplit in Hfollow.
    pose proof (calls_follow_writes_split pre post ev t s' Hfollow Hev) as Hs'.
    split; [done|]. intros Hpre.
    by rewrite Hs', replay_session_no_write.
  - intros Hlater.
    destruct (run_dispatched later w1 Hlater) as (evs & Hlog & _ & _ & Hcarry).
    rewrite (since_app _ _ _ Hlog). by rewrite <- Hs.
Qed.

Lemma nonempty_token_reaches_next_call_witness :
  let later := [Submit (getFolder 3); Tick;
                Reply 1 (BatchReplied
                           (reply_with (Some "sB"%string) [] [ItemReply "ok"]));
                Submit (getFolder 4); Tick] in
  let w1 := complete 0
              (BatchReplied (reply_with (Some "sA"%string) [] [ItemReply "ok"]))
              two_calls_sent in
  sessionId (client w1) = "sA"%string ∧
  (∀ pre ev post s',
     since w1 (run w1 later) = pre ++ ev :: post →
     call_session ev = Some s' →
     s' = replay_session "sA" pre ∧
     (Forall (fun ev' => is_session_set ev' = false) pre → s' = "sA"%string)) ∧
  (Forall (fun a => is_reply a = false) later →
   calls_carry "sA" (since w1 (run w1 later))).
Proof.
  apply (nonempty_token_reaches_next_call two_calls_sent 0
           {| via := Batching;
              entries := [{| DataLoader.key := getFolder 1;
                             DataLoader.settle := 0 |}] |}
           (BatchReplied (reply_with (Some "sA"%string) [] [ItemReply "ok"]))
           {| session_id := Some "sA"%string; notify := [] |}).
  - vm_compute. reflexivity.
  - reflexivity.
  - reflexivity.
  - reflexivity.
  - discriminate.
Defined.

(** The two-call scenario in full: the first envelope carries the
    placeholder, the second the token of the first reply. *)
Example second_envelope_carries_s2 :
  filter is_call
    (log (run first_call_sent
            [Reply 0 (BatchReplied
                        (reply_with (Some "s2"%string) [] [ItemReply "ok"]));
             Submit (getFolder 2); Tick])) =
    [BatchCall 0 {| be_requests := [getFolder 1];
                    be_sessionId := "1"; be_origin := "localhost" |};
     BatchCall 1 {| be_requests := [getFolder 2];
                    be_sessionId := "s2"; be_origin := "localhost" |}].
Proof. vm_compute. reflexivity. Qed.

(** Two calls in flight, answered one after the other with the tokens sA
    and sB: a call dispatched between the two completions carries sA, a
    call dispatched after the second carries sB. *)
Example envelopes_follow_the_last_completion :
  since two_calls_sent
    (run two_calls_sent
       [Reply 0 (BatchReplied
                   (reply_with (Some "sA"%string) [] [ItemReply "ok"]));
        Submit (getFolder 3); Tick;
        Reply 1 (BatchReplied
                   (reply_with (Some "sB"%string) [] [ItemReply "ok"]));
        Submit (getFolder 4); Tick]) =
    [SessionSet "sA"; Resolved 0 "ok";
     BatchCall 2 {| be_requests := [getFolder 3];
                    be_sessionId := "sA"; be_origin := "localhost" |};
     SessionSet "sB"; Resolved 1 "ok";
     BatchCall 3 {| be_requests := [getFolder 4];
                    be_sessionId := "sB"; be_origin := "localhost" |}].
Proof. vm_compute. reflexivity. Qed.

(** C5, as stated, fails in two ways.  A reply whose token is the empty
    string leaves the session alone, so the next envelope still carries the
    placeholder and not the reply's token.  And with a non-empty token, a
    call dispatched after another call has completed in between carries
    the token of that other completion. *)
Lemma token_does_not_always_reach_next_call :
  ¬ present_token_reaches_next_call ∧ ¬ token_reaches_every_later_call.
Proof.
  split.
  - intros H.
    specialize (H first_call_sent 0
      {| via := Batching;
         entries := [{| DataLoader.key := getFolder 1;
                        DataLoader.settle := 0 |}] |}
      (BatchReplied (reply_with (Some EmptyString) [] [ItemReply "ok"]))
      {| session_id := Some EmptyString; notify := [] |}
      EmptyString [Submit (getFolder 2); Tick]).
    assert (Hcarry : calls_carry EmptyString
      [BatchCall 1 {| be_requests := [getFolder 2];
                      be_sessionId := "1"; be_origin := "localhost" |}]).
    { apply H; try reflexivity. repeat constructor. }
    apply Forall_cons in Hcarry as [Hev _].
    specialize (Hev "1"%string eq_refl). discriminate.
  - intros H.
    specialize (H two_calls_sent 0
      {| via := Batching;
         entries := [{| DataLoader.key := getFolder 1;
                        DataLoader.settle := 0 |}] |}
      (BatchReplied (reply_with (Some "sA"%string) [] [ItemReply "ok"]))
      {| session_id := Some "sA"%string; notify := [] |}
      "sA"%string
      [Reply 1 (BatchReplied
                  (reply_with (Some "sB"%string) [] [ItemReply "ok"]));
       Submit (getFolder 3); Tick]).
    assert (Hcarry : calls_carry "sA"
      [SessionSet "sB"; Resolved 1 "ok";
       BatchCall 2 {| be_requests := [getFolder 3];
                      be_sessionId := "sB"; be_origin := "localhost" |}]).
    { apply H; try reflexivity. discriminate. }
    apply Forall_cons in Hcarry as [_ Hcarry].
    apply Forall_cons in Hcarry as [_ Hcarry].
    apply Forall_cons in Hcarry as [Hev _].
    specialize (Hev "sB"%string eq_refl). discriminate.
Qed.

(** ** The session update and its frame *)

(** C6, amended.  The callback of either handler replaces the client's
    session by the reply's token exactly when that token is present and not
    the empty string; with no token, or an empty one, the client is left as
    it was.  In both cases every other field of the client (origin, path,
    loaders, notification handler) is the one it had. *)
Theorem session_follows_nonempty_token (this : ZimbraBatchClient)
    (batched : BatchRequestResponse) (single : RequestResponse) :
  (batchDataHandler_then this batched).1.1 =
    match session_id (b_header batched) with
    | Some t => if decide (t = EmptyString) then this else with_sessionId t this
    | None => this
    end ∧
  (dataHandler_then this single).1.1 =
    match session_id (s_header single) with
    | Some t => if decide (t = EmptyString) then this else with_sessionId t this
    | None => this
    end.
Proof.
  rewrite batchDataHandler_then_eq, dataHandler_then_eq. simpl.
  rewrite !assign_session_spec.
  split.
  - destruct (session_id (b_header batched)) as [t|]; [|done].
    by case_decide.
  - destruct (session_id (s_header single)) as [t|]; [|done].
    by case_decide.
Qed.

(** C6, as stated, fails: a reply whose token is the empty string does not
    replace the session. *)
Lemma empty_token_is_not_applied : ¬ session_follows_present_token.
Proof.
  intros H.
  destruct (H sample_client (reply_with (Some EmptyString) [] [])
              {| s_header := {| session_id := None; notify := [] |};
                 s_item := ItemReply "ok" |}) as [Hb _].
  apply (f_equal sessionId) in Hb. vm_compute in Hb. discriminate.
Qed.

(** ** Invariants of the reachable worlds *)

Lemma failedDispatch_shape (q : list DataLoader.QueueEntry) l (e : Error) :
  let l' := (DataLoader.failedDispatch l q e).1 in
  DataLoader.batch l' = DataLoader.batch l ∧
  DataLoader.cache l' = DataLoader.cache l ∧
  DataLoader.queue l' = DataLoader.queue l.
Proof.
  simpl. unfold DataLoader.keys. revert l.
  induction q as [|entry q IH]; intros l; simpl; [done|].
  destruct (IH (DataLoader.clear (DataLoader.key entry) l)) as (-> & -> & ->).
  done.
Qed.

Lemma settle_batch_shape (q : list DataLoader.QueueEntry) l
    (outcome : Error + list Value) :
  let l' := (DataLoader.settle_batch l q outcome).1 in
  DataLoader.batch l' = DataLoader.batch l ∧
  DataLoader.cache l' = DataLoader.cache l ∧
  DataLoader.queue l' = DataLoader.queue l.
Proof.
  unfold DataLoader.settle_batch. destruct outcome as [e|values].
  - apply failedDispatch_shape.
  - case_decide; [done|apply failedDispatch_shape].
Qed.

Lemma assign_session_loaders (token : option string) (this : ZimbraBatchClient) :
  batchDataLoader (assign_session token this).1 = batchDataLoader this ∧
  dataLoader (assign_session token this).1 = dataLoader this.
Proof.
  rewrite assign_session_spec.
  destruct token as [t|]; [case_decide|]; done.
Qed.

Lemma handler_settled_loaders (which : Loader) (this this1 : ZimbraBatchClient)
    (o : TransportOutcome) evs outcome :
  handler_settled which this o = Some (this1, evs, outcome) →
  batchDataLoader this1 = batchDataLoader this ∧
  dataLoader this1 = dataLoader this.
Proof.
  destruct o as [e|r|r], which; simpl; try done.
  - by intros [= <- _ _].
  - by intros [= <- _ _].
  - rewrite batchDataHandler_then_eq. simpl. intros [= <- _ _].
    apply assign_session_loaders.
  - rewrite dataHandler_then_eq. simpl. intros [= <- _ _].
    apply assign_session_loaders.
Qed.

Lemma complete_invariant (id : call) (o : TransportOutcome) (w : World) :
  loaders_as_constructed (client w) → single_calls_serve_one w →
  loaders_as_constructed (client (complete id o w)) ∧
  single_calls_serve_one (complete id o w).
Proof.
  intros Hl Hs. unfold complete.
  destruct (in_flight w !! id) as [f|] eqn:Hf; [|done].
  destruct (handler_settled _ _ _) as [[[this1 evs] outcome]|] eqn:Hh; [|done].
  apply handler_settled_loaders in Hh as [Hb Hd].
  pose proof (settle_batch_shape (entries f) (loader (via f) this1) outcome)
    as Hshape.
  destruct (DataLoader.settle_batch _ _ _) as [l' settled].
  simpl in Hshape. destruct Hshape as (H1 & H2 & H3).
  destruct Hl as (L1 & L2 & L3 & L4 & L5). split.
  - unfold loaders_as_constructed. simpl.
    destruct (via f); simpl in *; rewrite ?H1, ?H2, ?H3, ?Hb, ?Hd; done.
  - intros id' f'. simpl. intros Hin Hvia.
    apply lookup_delete_Some in Hin as [_ Hin]. by eapply Hs.
Qed.

Lemma dispatchQueue_batching_invariant (w : World) :
  loaders_as_constructed (client w) → single_calls_serve_one w →
  loaders_as_constructed (client (dispatchQueue Batching w)) ∧
  single_calls_serve_one (dispatchQueue Batching w).
Proof.
  intros Hl Hs. split; [done|].
  intros id f. simpl. intros Hin Hvia.
  apply lookup_insert_Some in Hin as [[_ <-]|[_ Hin]]; [done|by eapply Hs].
Qed.

Lemma load_invariant (which : Loader) (w : World) (k : JsonRequestOptions) :
  loaders_as_constructed (client w) → single_calls_serve_one w →
  loaders_as_constructed (client (load which w k).1) ∧
  single_calls_serve_one (load which w k).1.
Proof.
  intros Hl Hs. unfold load.
  destruct (DataLoader.cached _ _); [done|].
  destruct Hl as (L1 & L2 & L3 & L4 & L5).
  destruct which; simpl.
  - rewrite L1. destruct (decide _).
    all: split; [done|]. 
    all: intros id f; simpl; apply Hs.
  - rewrite L5, L3. simpl. split; [done|].
    intros id f. simpl. intros Hin Hvia.
    apply lookup_insert_Some in Hin as [[_ <-]|[_ Hin]]; [|by eapply Hs].
    simpl. by rewrite L5.
Qed.

Lemma tick_invariant (w : World) :
  loaders_as_constructed (client w) → single_calls_serve_one w →
  loaders_as_constructed (client (tick w)) ∧ single_calls_serve_one (tick w).
Proof.
  intros Hl Hs.
  assert (Hb : loaders_as_constructed (client (run_scheduled Batching w)) ∧
               single_calls_serve_one (run_scheduled Batching w)).
  { unfold run_scheduled. simpl.
    destruct (DataLoader.batch _); [|done].
    destruct (DataLoader.queue _) eqn:Hq; [done|].
    by apply dispatchQueue_batching_invariant. }
  destruct Hb as [Hl' Hs'].
  assert (Heq : tick w = run_scheduled Batching w).
  { unfold tick. unfold run_scheduled at 1.
    destruct Hl' as (_ & _ & H3 & _). cbn [loader]. by rewrite H3. }
  by rewrite Heq.
Qed.

Lemma reachable_invariant (w : World) :
  reachable w →
  loaders_as_constructed (client w) ∧ single_calls_serve_one w.
Proof.
  induction 1 as [hostname pathname options|w a _ [Hl Hs]].
  - split; [done|]. intros id f. simpl. by rewrite lookup_empty.
  - destruct a as [options| |id o]; simpl.
    + unfold jsonRequest. destruct (truthy _); by apply load_invariant.
    + by apply tick_invariant.
    + by apply complete_invariant.
Qed.

Lemma reachable_run (actions : list Action) (w : World) :
  reachable w → reachable (run w actions).
Proof.
  revert w. induction actions as [|a actions IH]; intros w Hw; [done|].
  simpl. apply IH. by constructor.
Qed.

(** ** Accumulation of unscoped requests *)

Lemma not_scoped_truthy (o : JsonRequestOptions) :
  ¬ scoped o → truthy (accountName o) = false.
Proof.
  intros Hn. destruct (truthy _) eqn:Ht; [|done].
  apply truthy_spec in Ht. contradiction.
Qed.

Lemma scoped_truthy (o : JsonRequestOptions) :
  scoped o → truthy (accountName o) = true.
Proof. apply truthy_spec. Qed.

Lemma tick_as_constructed (w : World) :
  loaders_as_constructed (client w) →
  tick w = match DataLoader.queue (batchDataLoader (client w)) with
           | [] => w
           | _ :: _ => dispatchQueue Batching w
           end.
Proof.
  intros (L1 & L2 & L3 & L4 & L5).
  assert (Hb : run_scheduled Batching w =
               match DataLoader.queue (batchDataLoader (client w)) with
               | [] => w
               | _ :: _ => dispatchQueue Batching w
               end).
  { unfold run_scheduled. cbn [loader]. by rewrite L1. }
  unfold tick. rewrite Hb. unfold run_scheduled. cbn [loader].
  destruct (DataLoader.queue (batchDataLoader (client w))); [by rewrite L3|].
  simpl. by rewrite L3.
Qed.

(** A cache miss on the batch loader only queues the request. *)
Lemma submit_unscoped_miss (w : World) (o : JsonRequestOptions) :
  ¬ scoped o →
  DataLoader.batch (batchDataLoader (client w)) = true →
  DataLoader.cache (batchDataLoader (client w)) = true →
  DataLoader.promiseCache (batchDataLoader (client w)) !! oid o = None →
  jsonRequest w o =
    ({| client := with_batchDataLoader
                    (DataLoader.enqueue (batchDataLoader (client w)) o
                       (next_promise w)) (client w);
        next_promise := S (next_promise w);
        next_call := next_call w;
        in_flight := in_flight w;
        log := log w |}, next_promise w).
Proof.
  intros Hn Hb Hc Hmiss. unfold jsonRequest, load.
  rewrite (not_scoped_truthy o Hn). unfold DataLoader.cached. cbn [loader].
  rewrite Hc, Hmiss. simpl. rewrite Hb. by destruct (decide _).
Qed.

(** A cache hit returns the cached promise and changes nothing. *)
Lemma load_hit (which : Loader) (w : World) (o : JsonRequestOptions)
    (p : promise) :
  DataLoader.cache (loader which (client w)) = true →
  DataLoader.promiseCache (loader which (client w)) !! oid o = Some p →
  load which w o = (w, p).
Proof.
  intros Hc Hhit. unfold load, DataLoader.cached. by rewrite Hc, Hhit.
Qed.

Lemma submissions_accumulate (os : list JsonRequestOptions) (w : World) :
  DataLoader.batch (batchDataLoader (client w)) = true →
  DataLoader.cache (batchDataLoader (client w)) = true →
  Forall (fun o => ¬ scoped o) os →
  NoDup (map oid os) →
  Forall (fun o =>
    DataLoader.promiseCache (batchDataLoader (client w)) !! oid o = None) os →
  let w' := run w (map Submit os) in
  log w' = log w ∧ next_call w' = next_call w ∧
  in_flight w' = in_flight w ∧
  sessionId (client w') = sessionId (client w) ∧
  origin (client w') = origin (client w) ∧
  DataLoader.keys (DataLoader.queue (batchDataLoader (client w'))) =
    DataLoader.keys (DataLoader.queue (batchDataLoader (client w))) ++ os.
Proof.
  revert w. induction os as [|o os IH]; intros w Hb Hc Hun Hnd Hmiss.
  { simpl. by rewrite app_nil_r. }
  apply Forall_cons in Hun as [Hu Hun].
  apply Forall_cons in Hmiss as [Hm Hmiss].
  change (map oid (o :: os)) with (oid o :: map oid os) in Hnd.
  apply NoDup_cons in Hnd as [Hnotin Hnd].
  change (run w (map Submit (o :: os)))
    with (run (jsonRequest w o).1 (map Submit os)).
  rewrite (submit_unscoped_miss w o Hu Hb Hc Hm). cbn [fst].
  set (w1 := {| client := _ |}).
  assert (Hmiss1 : Forall (fun o' =>
    DataLoader.promiseCache (batchDataLoader (client w1)) !! oid o' = None) os).
  { apply Forall_forall. intros o' Ho'. simpl. rewrite Hc.
    rewrite lookup_insert_ne.
    - by apply (proj1 (Forall_forall _ _) Hmiss).
    - intros Heq. apply Hnotin. rewrite Heq.
      by apply (list_elem_of_fmap_2 oid). }
  destruct (IH w1 Hb Hc Hun Hnd Hmiss1) as (H1 & H2 & H3 & H4 & H5 & H6).
  cbv zeta. rewrite H1, H2, H3, H4, H5, H6. simpl.
  unfold DataLoader.keys. rewrite map_app. simpl. by rewrite <- app_assoc.
Qed.

(** C7, amended.  The loader memoises by the identity of the request
    object.  Unscoped requests submitted within one tick, each a distinct
    object not loaded through this client before, are appended in arrival
    order to the requests already queued, and the one batch call made when
    the tick ends carries them all, with the client's session and origin:
    none is dropped or merged, however alike their contents.  Submitting an
    object that was loaded before adds no position: the promise made for its
    first submission is returned and nothing else happens. *)
Theorem distinct_submissions_keep_their_positions (w : World)
    (os : list JsonRequestOptions) :
  reachable w →
  Forall (fun o => ¬ scoped o) os →
  os ≠ [] →
  NoDup (map oid os) →
  Forall (fun o =>
    DataLoader.promiseCache (batchDataLoader (client w)) !! oid o = None) os →
  since w (tick (run w (map Submit os))) =
    [BatchCall (next_call w)
       (batchDataHandler_request (client w)
          (DataLoader.keys (DataLoader.queue (batchDataLoader (client w)))
           ++ os))] ∧
  ∀ o p, ¬ scoped o →
    DataLoader.promiseCache (batchDataLoader (client w)) !! oid o = Some p →
    jsonRequest w o = (w, p).
Proof.
  intros Hreach Hun Hne Hnd Hmiss.
  destruct (reachable_invariant w Hreach) as [(L1 & L2 & _) _].
  split.
  - destruct (submissions_accumulate os w L1 L2 Hun Hnd Hmiss)
      as (H1 & H2 & H3 & H4 & H5 & H6).
    set (w' := run w (map Submit os)) in *.
    assert (Hreach' : reachable w') by by apply reachable_run.
    destruct (reachable_invariant w' Hreach') as [Hl' _].
    assert (Htick : tick w' = dispatchQueue Batching w').
    { rewrite (tick_as_constructed w' Hl').
      destruct (DataLoader.queue (batchDataLoader (client w'))); [|done].
      simpl in H6. symmetry in H6. by apply app_eq_nil in H6 as [_ ->]. }
    rewrite Htick. apply since_app. simpl. rewrite H1, H2.
    unfold batchDataHandler_request. simpl. by rewrite H4, H5, H6.
  - intros o p Hn Hhit. unfold jsonRequest. rewrite (not_scoped_truthy o Hn).
    by apply load_hit.
Qed.

Lemma distinct_submissions_keep_their_positions_witness :
  since (boot sample_client)
    (tick (run (boot sample_client)
             (map Submit [getFolder 1; getFolder 2]))) =
    [BatchCall 0
       (batchDataHandler_request sample_client
          ([] ++ [getFolder 1; getFolder 2]))] ∧
  ∀ o p, ¬ scoped o →
    DataLoader.promiseCache (batchDataLoader sample_client) !! oid o = Some p →
    jsonRequest (boot sample_client) o = (boot sample_client, p).
Proof.
  apply (distinct_submissions_keep_their_positions (boot sample_client)
           [getFolder 1; getFolder 2]).
  - apply (reachable_boot "localhost" "/service/soap"
             {| zimbraOrigin := None; opt_soapPathname := None;
                opt_notificationHandler := Some (quiet_handler 7) |}).
  - repeat constructor; intros (a & Ha & _); discriminate.
  - discriminate.
  - compute_done.
  - repeat constructor.
Defined.

(** C7, as stated, fails: the same request object submitted twice within a
    tick occupies one position of the batch, not two. *)
Lemma resubmitted_object_shares_its_position :
  ¬ every_submission_gets_a_position.
Proof.
  intros H.
  specialize (H (boot sample_client) [getFolder 1; getFolder 1]).
  assert (Hsent :
    since (boot sample_client)
      (tick (run (boot sample_client)
               (map Submit [getFolder 1; getFolder 1]))) =
    [BatchCall 0 {| be_requests := [getFolder 1];
                    be_sessionId := "1"; be_origin := "localhost" |}]).
  { vm_compute. reflexivity. }
  rewrite Hsent in H.
  assert (Hclaim : [BatchCall 0 {| be_requests := [getFolder 1];
                                   be_sessionId := "1";
                                   be_origin := "localhost" |}] =
                   [BatchCall 0 {| be_requests := [getFolder 1; getFolder 1];
                                   be_sessionId := "1";
                                   be_origin := "localhost" |}]).
  { apply H.
    - apply (reachable_boot "localhost" "/service/soap"
               {| zimbraOrigin := None; opt_soapPathname := None;
                  opt_notificationHandler := Some (quiet_handler 7) |}).
    - repeat constructor; intros (a & Ha & _); discriminate.
    - discriminate. }
  discriminate Hclaim.
Qed.

(** ** Account-scoped requests *)

(** A cache miss on the single-call loader dispatches at once, with a queue
    of one. *)
Lemma submit_scoped_miss (w : World) (o : JsonRequestOptions) :
  scoped o →
  loaders_as_constructed (client w) →
  DataLoader.promiseCache (dataLoader (client w)) !! oid o = None →
  let w' := (jsonRequest w o).1 in
  (jsonRequest w o).2 = next_promise w ∧
  log w' = log w ++ [single_call_for w (next_call w) o] ∧
  next_call w' = S (next_call w) ∧
  sessionId (client w') = sessionId (client w) ∧
  origin (client w') = origin (client w) ∧
  in_flight w' =
    <[next_call w :=
        {| via := Single;
           entries := [{| DataLoader.key := o;
                          DataLoader.settle := next_promise w |}] |}]>
      (in_flight w) ∧
  DataLoader.promiseCache (dataLoader (client w')) =
    <[oid o := next_promise w]> (DataLoader.promiseCache (dataLoader (client w))).
Proof.
  intros Hs (L1 & L2 & L3 & L4 & L5) Hmiss.
  unfold jsonRequest, load, DataLoader.cached.
  rewrite (scoped_truthy o Hs). cbn [loader].
  rewrite L4, Hmiss. simpl. rewrite L5, L3. simpl.
  by rewrite L4, L5.
Qed.

Lemma scoped_submissions_dispatch (os : list JsonRequestOptions) (w : World) :
  reachable w →
  Forall scoped os →
  NoDup (map oid os) →
  Forall (fun o =>
    DataLoader.promiseCache (dataLoader (client w)) !! oid o = None) os →
  log (run w (map Submit os)) =
    log w ++ imap (fun i o => single_call_for w (next_call w + i) o) os.
Proof.
  revert w. induction os as [|o os IH]; intros w Hreach Hsc Hnd Hmiss.
  { simpl. by rewrite app_nil_r. }
  apply Forall_cons in Hsc as [Hs Hsc].
  apply Forall_cons in Hmiss as [Hm Hmiss].
  change (map oid (o :: os)) with (oid o :: map oid os) in Hnd.
  apply NoDup_cons in Hnd as [Hnotin Hnd].
  change (run w (map Submit (o :: os)))
    with (run (step w (Submit o)) (map Submit os)).
  destruct (reachable_invariant w Hreach) as [Hl _].
  destruct (submit_scoped_miss w o Hs Hl Hm)
    as (_ & Hlog & Hcall & Hsess & Horig & _ & Hcache).
  rewrite IH.
  - simpl. rewrite Hlog, <- app_assoc. simpl.
    rewrite Nat.add_0_r. do 2 f_equal.
    apply imap_ext. intros i o' _. simpl.
    unfold single_call_for. rewrite Hcall, Hsess, Horig.
    f_equal. lia.
  - by constructor.
  - done.
  - done.
  - apply Forall_forall. intros o' Ho'. simpl. rewrite Hcache.
    rewrite lookup_insert_ne.
    + by apply (proj1 (Forall_forall _ _) Hmiss).
    + intros Heq. apply Hnotin. rewrite Heq.
      by apply (list_elem_of_fmap_2 oid).
Qed.

(** C8, amended.  The single-call loader memoises by the identity of the
    request object, like the batch loader.  Account-scoped requests, each a
    distinct object not loaded through this client before, make one
    transport call apiece, at once and in submission order, each call
    carrying that one request with the client's session and origin; two of
    them are never put in one call.  Submitting an object that was loaded
    before makes no call: the promise made for its first submission is
    returned. *)
Theorem distinct_scoped_requests_get_their_own_calls (w : World)
    (os : list JsonRequestOptions) :
  reachable w →
  Forall scoped os →
  NoDup (map oid os) →
  Forall (fun o =>
    DataLoader.promiseCache (dataLoader (client w)) !! oid o = None) os →
  since w (run w (map Submit os)) =
    imap (fun i o => single_call_for w (next_call w + i) o) os ∧
  ∀ o p, scoped o →
    DataLoader.promiseCache (dataLoader (client w)) !! oid o = Some p →
    jsonRequest w o = (w, p).
Proof.
  intros Hreach Hsc Hnd Hmiss. split.
  - apply since_app. by apply scoped_submissions_dispatch.
  - intros o p Hs Hhit. unfold jsonRequest. rewrite (scoped_truthy o Hs).
    apply load_hit; [|done].
    by destruct (reachable_invariant w Hreach) as [(_ & _ & _ & ? & _) _].
Qed.

Lemma distinct_scoped_requests_get_their_own_calls_witness :
  since (boot sample_client)
    (run (boot sample_client)
       (map Submit [getFolderAs 3 "b"; getFolderAs 4 "b"])) =
    imap (fun i o => single_call_for (boot sample_client) (0 + i) o)
      [getFolderAs 3 "b"; getFolderAs 4 "b"] ∧
  ∀ o p, scoped o →
    DataLoader.promiseCache (dataLoader sample_client) !! oid o = Some p →
    jsonRequest (boot sample_client) o = (boot sample_client, p).
Proof.
  apply (distinct_scoped_requests_get_their_own_calls (boot sample_client)
           [getFolderAs 3 "b"; getFolderAs 4 "b"]).
  - apply (reachable_boot "localhost" "/service/soap"
             {| zimbraOrigin := None; opt_soapPathname := None;
                opt_notificationHandler := Some (quiet_handler 7) |}).
  - repeat constructor; (eexists; split; [reflexivity|discriminate]).
  - compute_done.
  - repeat constructor.
Defined.

(** C8, as stated, fails: submitting again the request object of an earlier
    scoped call makes no transport call. *)
Lemma resubmitted_scoped_object_makes_no_call :
  ¬ every_scoped_submission_makes_a_call.
Proof.
  intros H.
  specialize (H scoped_call_sent (getFolderAs 3 "b")).
  assert (Hnone : since scoped_call_sent
                    (jsonRequest scoped_call_sent (getFolderAs 3 "b")).1 = []).
  { vm_compute. reflexivity. }
  rewrite Hnone in H.
  assert (Hclaim : [] = [single_call_for scoped_call_sent
                           (next_call scoped_call_sent) (getFolderAs 3 "b")]).
  { apply H.
    - apply (reachable_run [Submit (getFolderAs 3 "b")]).
      apply (reachable_boot "localhost" "/service/soap"
               {| zimbraOrigin := None; opt_soapPathname := None;
                  opt_notificationHandler := Some (quiet_handler 7) |}).
    - eexists; split; [reflexivity|discriminate]. }
  discriminate Hclaim.
Qed.

(** ** Notifications *)

(** C9.  When the reply of a completed call, batched or single, carries
    notification blocks, the callback invokes the registered handler once,
    with the first block, and with none of the blocks after it; when no
    handler is registered it invokes nothing. *)
Theorem only_first_notification_block_is_relayed (which : Loader)
    (this : ZimbraBatchClient) (o : TransportOutcome) (h : ResponseHeader)
    (first : Notification) (rest : list Notification) :
  answers which o = true →
  reply_header o = Some h →
  notify h = first :: rest →
  ∃ this1 evs outcome,
    handler_settled which this o = Some (this1, evs, outcome) ∧
    filter is_notified evs =
      match notificationHandler this with
      | Some handler => [Notified handler first]
      | None => []
      end.
Proof.
  intros Ha Hh Hn.
  assert (Hrelay : ∀ token,
    let a := assign_session token this in
    filter is_notified (a.2 ++ relay_notification (head (notify h)) a.1) =
      match notificationHandler this with
      | Some handler => [Notified handler first]
      | None => []
      end).
  { intros token. rewrite Hn, assign_session_spec. unfold relay_notification.
    destruct token as [t|]; [case_decide|]; simpl;
      (destruct (notificationHandler this) as [handler|]; [|done]);
      by destruct (handler_throws handler first). }
  destruct o as [e|r|r], which; simplify_eq/=.
  - rewrite batchDataHandler_then_eq. simpl. eauto.
  - rewrite dataHandler_then_eq. simpl. eauto.
Qed.

Lemma only_first_notification_block_is_relayed_witness :
  ∃ this1 evs outcome,
    handler_settled Batching sample_client (BatchReplied mixed_reply) =
      Some (this1, evs, outcome) ∧
    filter is_notified evs =
      match notificationHandler sample_client with
      | Some handler => [Notified handler {| notification_content := "first" |}]
      | None => []
      end.
Proof.
  apply (only_first_notification_block_is_relayed Batching sample_client
           (BatchReplied mixed_reply) (b_header mixed_reply)
           {| notification_content := "first" |}
           [{| notification_content := "second" |}]).
  - reflexivity.
  - reflexivity.
  - reflexivity.
Defined.

(** ** The single-call handler and its input list *)

(** C10.  [dataHandler] sends the first element of its input list and
    nothing of the others, and its callback returns a list of one value
    whatever that input was.  A queue of any other length would therefore
    not be served: the loader rejects each of its entries with a type error
    instead of settling it from the reply.  In every reachable world the
    calls of the single-call loader do serve a queue of exactly one entry. *)
Theorem dataHandler_serves_one_request (this : ZimbraBatchClient)
    (reqs : list JsonRequestOptions) (response : RequestResponse) :
  se_request (dataHandler_request this reqs) = head reqs ∧
  dataHandler_request this reqs = dataHandler_request this (take 1 reqs) ∧
  length (dataHandler_then this response).2 = 1 ∧
  (∀ l (q : list DataLoader.QueueEntry), length q ≠ 1 →
     DataLoader.settle_batch l q (inr (dataHandler_then this response).2) =
       DataLoader.failedDispatch l q
         (DataLoader.length_mismatch (DataLoader.keys q)
            (dataHandler_then this response).2)) ∧
  (∀ w, reachable w → single_calls_serve_one w).
Proof.
  split; [done|]. split; [by destruct reqs|].
  assert (Hone : length (dataHandler_then this response).2 = 1).
  { by rewrite dataHandler_then_eq. }
  split; [done|]. split.
  - intros l q Hq. unfold DataLoader.settle_batch, DataLoader.keys.
    rewrite Hone, length_map. by rewrite decide_False.
  - intros w Hw. by apply reachable_invariant.
Qed.

Lemma dataHandler_serves_one_request_witness :
  single_calls_serve_one scoped_call_sent.
Proof.
  apply (dataHandler_serves_one_request sample_client []
           {| s_header := {| session_id := None; notify := [] |};
              s_item := ItemReply "ok" |}).
  apply (reachable_run [Submit (getFolderAs 3 "b")]).
  apply (reachable_boot "localhost" "/service/soap"
           {| zimbraOrigin := None; opt_soapPathname := None;
              opt_notificationHandler := Some (quiet_handler 7) |}).
Defined.

(** A queue of two handed to the single-call handler: only the first request
    is sent, and both callers are rejected although the transport replied. *)
Example two_requests_to_dataHandler :
  se_request (dataHandler_request sample_client
                [getFolderAs 3 "b"; getFolderAs 4 "c"]) =
    Some (getFolderAs 3 "b") ∧
  (DataLoader.settle_batch (dataLoader sample_client)
     [{| DataLoader.key := getFolderAs 3 "b"; DataLoader.settle := 0 |};
      {| DataLoader.key := getFolderAs 4 "c"; DataLoader.settle := 1 |}]
     (inr (dataHandler_then sample_client
             {| s_header := {| session_id := None; notify := [] |};
                s_item := ItemReply "ok" |}).2)).2 =
    [Rejected 0
       (TypeError [getFolderAs 3 "b"; getFolderAs 4 "c"] [VBody "ok"]);
     Rejected 1
       (TypeError [getFolderAs 3 "b"; getFolderAs 4 "c"] [VBody "ok"])].
Proof. split; reflexivity. Qed.

(** ** What no step changes *)

Lemma same_configuration_refl (this : ZimbraBatchClient) :
  same_configuration this this.
Proof. done. Qed.

Lemma same_configuration_trans (a b c : ZimbraBatchClient) :
  same_configuration a b → same_configuration b c → same_configuration a c.
Proof.
  unfold same_configuration. intros (? & ? & ?) (? & ? & ?).
  repeat split; congruence.
Qed.

Lemma with_loader_configuration (which : Loader) l (this : ZimbraBatchClient) :
  same_configuration (with_loader which l this) this.
Proof. by destruct which. Qed.

Lemma assign_session_configuration (token : option string)
    (this : ZimbraBatchClient) :
  same_configuration (assign_session token this).1 this.
Proof.
  rewrite assign_session_spec.
  destruct token as [t|]; [case_decide|]; done.
Qed.

Lemma handler_settled_configuration (which : Loader)
    (this this1 : ZimbraBatchClient) (o : TransportOutcome) evs outcome :
  handler_settled which this o = Some (this1, evs, outcome) →
  same_configuration this1 this.
Proof.
  destruct o as [e|r|r], which; simpl; try done.
  - by intros [= <- _ _].
  - by intros [= <- _ _].
  - rewrite batchDataHandler_then_eq. simpl. intros [= <- _ _].
    apply assign_session_configuration.
  - rewrite dataHandler_then_eq. simpl. intros [= <- _ _].
    apply assign_session_configuration.
Qed.

Lemma dispatchQueue_configuration (which : Loader) (w : World) :
  same_configuration (client (dispatchQueue which w)) (client w).
Proof. apply with_loader_configuration. Qed.

Lemma load_configuration (which : Loader) (w : World)
    (k : JsonRequestOptions) :
  same_configuration (client (load which w k).1) (client w).
Proof.
  unfold load. destruct (DataLoader.cached _ _); [done|]. simpl.
  case_decide; [destruct (DataLoader.batch _)|]; simpl;
    try apply with_loader_configuration.
  eapply same_configuration_trans; apply with_loader_configuration.
Qed.

Lemma run_scheduled_configuration (which : Loader) (w : World) :
  same_configuration (client (run_scheduled which w)) (client w).
Proof.
  unfold run_scheduled. destruct (DataLoader.batch _); [|done].
  destruct (DataLoader.queue _); [done|apply dispatchQueue_configuration].
Qed.

Lemma complete_configuration (id : call) (o : TransportOutcome) (w : World) :
  same_configuration (client (complete id o w)) (client w).
Proof.
  unfold complete. destruct (in_flight w !! id) as [f|]; [|done].
  destruct (handler_settled _ _ _) as [[[this1 evs] outcome]|] eqn:Hh; [|done].
  destruct (DataLoader.settle_batch _ _ _). simpl.
  eapply same_configuration_trans; [apply with_loader_configuration|].
  by eapply handler_settled_configuration.
Qed.

Lemma step_configuration (w : World) (a : Action) :
  same_configuration (client (step w a)) (client w).
Proof.
  destruct a as [options| |id o]; simpl.
  - unfold jsonRequest. destruct (truthy _); apply load_configuration.
  - unfold tick.
    eapply same_configuration_trans; apply run_scheduled_configuration.
  - apply complete_configuration.
Qed.

Lemma run_configuration (actions : list Action) (w : World) :
  same_configuration (client (run w actions)) (client w).
Proof.
  revert w. induction actions as [|a actions IH]; intros w; [done|].
  simpl. eapply same_configuration_trans; [apply IH|apply step_configuration].
Qed.

(** X1.  Whatever is submitted, dispatched or answered, the origin, the SOAP
    path and the notification handler of a client stay the ones it had, and
    [resolve] therefore maps a path to the same address at all times. *)
Theorem configuration_outlives_every_step (w : World)
    (actions : list Action) (path : string) :
  origin (client (run w actions)) = origin (client w) ∧
  soapPathname (client (run w actions)) = soapPathname (client w) ∧
  notificationHandler (client (run w actions)) =
    notificationHandler (client w) ∧
  resolve (client (run w actions)) path = resolve (client w) path.
Proof.
  destruct (run_configuration actions w) as (Ho & Hp & Hn).
  unfold resolve. by rewrite Ho, Hp, Hn.
Qed.

(** ** What every outgoing call carries *)

Lemma sent_by_same (a b : ZimbraBatchClient) (ev : Event) :
  origin a = origin b → sessionId a = sessionId b →
  sent_by a ev → sent_by b ev.
Proof. unfold sent_by. by intros -> ->. Qed.

Lemma dispatchQueue_sends (which : Loader) (w : World) :
  ∃ ev, log (dispatchQueue which w) = log w ++ [ev] ∧ sent_by (client w) ev.
Proof.
  eexists. split; [reflexivity|]. intros _.
  destruct which; simpl; done.
Qed.

Lemma load_sends (which : Loader) (w : World) (k : JsonRequestOptions) :
  ∃ evs, log (load which w k).1 = log w ++ evs ∧
         Forall (sent_by (client w)) evs.
Proof.
  unfold load. destruct (DataLoader.cached _ _).
  { exists []. by rewrite app_nil_r. }
  set (w1 := {| client := _ |}). simpl.
  assert (Hquiet : ∃ evs, log w1 = log w ++ evs ∧
                          Forall (sent_by (client w)) evs).
  { exists []. simpl. by rewrite app_nil_r. }
  case_decide; [destruct (DataLoader.batch _)|]; try done.
  destruct (dispatchQueue_sends which w1) as (ev & Hlog & Hsent).
  exists [ev]. split; [done|]. constructor; [|done].
  eapply sent_by_same; [| |done]; unfold w1; simpl.
  - apply with_loader_configuration.
  - apply sessionId_with_loader.
Qed.

Lemma run_scheduled_sends (which : Loader) (w : World) :
  ∃ evs, log (run_scheduled which w) = log w ++ evs ∧
         Forall (sent_by (client w)) evs.
Proof.
  unfold run_scheduled.
  destruct (DataLoader.batch _); [|exists []; by rewrite app_nil_r].
  destruct (DataLoader.queue _); [exists []; by rewrite app_nil_r|].
  destruct (dispatchQueue_sends which w) as (ev & Hlog & Hsent).
  exists [ev]. split; [done|by constructor].
Qed.

Lemma step_sends (w : World) (a : Action) :
  ∃ evs, log (step w a) = log w ++ evs ∧ Forall (sent_by (client w)) evs.
Proof.
  destruct a as [options| |id o]; simpl.
  - unfold jsonRequest. destruct (truthy _); apply load_sends.
  - unfold tick.
    destruct (run_scheduled_sends Batching w) as (e1 & Hl1 & Hs1).
    destruct (run_scheduled_sends Single (run_scheduled Batching w))
      as (e2 & Hl2 & Hs2).
    exists (e1 ++ e2). rewrite Hl2, Hl1, app_assoc. split; [done|].
    apply Forall_app. split; [done|].
    eapply Forall_impl; [exact Hs2|]. intros ev.
    destruct (run_scheduled_dispatched Batching w) as (_ & _ & Hsess & _).
    apply sent_by_same; [|done].
    apply run_scheduled_configuration.
  - destruct (complete_sends id o w) as (evs & Hlog & Hquiet).
    exists evs. split; [done|].
    eapply Forall_impl; [exact Hquiet|]. intros ev Hev. unfold sent_by.
    by rewrite Hev.
Qed.

Lemma reachable_calls_from_origin (w : World) :
  reachable w → calls_from (origin (client w)) (log w).
Proof.
  induction 1 as [hostname pathname options|w a _ IH]; [by constructor|].
  destruct (step_sends w a) as (evs & Hlog & Hsent).
  destruct (step_configuration w a) as (Ho & _).
  unfold calls_from. rewrite Hlog, Ho. apply Forall_app. split; [done|].
  eapply Forall_impl; [exact Hsent|]. intros ev Hev o' Ho'.
  destruct Hev as [Hev _]; [by destruct ev|]. congruence.
Qed.

(** X2.  Every transport call a client ever makes, batched or single,
    carries the origin chosen by the constructor: [options.zimbraOrigin]
    when that is a non-empty string, and the default host name otherwise,
    which includes an origin given as the empty string. *)
Theorem every_call_carries_the_constructed_origin (hostname pathname : string)
    (options : ZimbraClientOptions) (actions : list Action) :
  calls_from
    match zimbraOrigin options with
    | Some given => if decide (given = EmptyString) then hostname else given
    | None => hostname
    end
    (log (run (boot (new_ZimbraBatchClient hostname pathname options)) actions)).
Proof.
  set (w0 := boot (new_ZimbraBatchClient hostname pathname options)).
  assert (Hreach : reachable (run w0 actions)).
  { apply reachable_run. constructor. }
  apply reachable_calls_from_origin in Hreach.
  destruct (run_configuration actions w0) as (Ho & _).
  rewrite Ho in Hreach. simpl in Hreach. unfold or_else in Hreach.
  destruct (zimbraOrigin options) as [given|]; [|done].
  destruct (String.eqb_spec given EmptyString); case_decide; done.
Qed.

Lemma handler_settled_session (which : Loader)
    (this this1 : ZimbraBatchClient) (o : TransportOutcome) evs outcome :
  handler_settled which this o = Some (this1, evs, outcome) →
  sessionId this ≠ EmptyString → sessionId this1 ≠ EmptyString.
Proof.
  assert (Hassign : ∀ token, sessionId this ≠ EmptyString →
            sessionId (assign_session token this).1 ≠ EmptyString).
  { intros token Hne. rewrite assign_session_spec.
    destruct token as [t|]; [case_decide|]; done. }
  destruct o as [e|r|r], which; simpl; try done.
  - by intros [= <- _ _].
  - by intros [= <- _ _].
  - rewrite batchDataHandler_then_eq. simpl. intros [= <- _ _]. apply Hassign.
  - rewrite dataHandler_then_eq. simpl. intros [= <- _ _]. apply Hassign.
Qed.

Lemma step_session_nonempty (w : World) (a : Action) :
  sessionId (client w) ≠ EmptyString →
  sessionId (client (step w a)) ≠ EmptyString.
Proof.
  intros Hne. destruct a as [options| |id o].
  - destruct (step_dispatched w (Submit options) eq_refl) as (_ & _ & -> & _).
    done.
  - destruct (step_dispatched w Tick eq_refl) as (_ & _ & -> & _). done.
  - simpl. unfold complete. destruct (in_flight w !! id) as [f|]; [|done].
    destruct (handler_settled _ _ _) as [[[this1 evs] outcome]|] eqn:Hh;
      [|done].
    destruct (DataLoader.settle_batch _ _ _). simpl.
    rewrite sessionId_with_loader. by eapply handler_settled_session.
Qed.

(** X3.  The session of a client is never the empty string: it starts as
    the placeholder and a reply's token replaces it only when that token is
    not empty.  Every envelope the client sends, batched or single,
    therefore carries a non-empty session. *)
Theorem session_is_never_empty (w : World) :
  reachable w →
  sessionId (client w) ≠ EmptyString ∧ Forall call_has_session (log w).
Proof.
  induction 1 as [hostname pathname options|w a _ [IHs IHl]].
  - split; [done|by constructor].
  - split; [by apply step_session_nonempty|].
    destruct (step_sends w a) as (evs & -> & Hsent).
    apply Forall_app. split; [done|].
    eapply Forall_impl; [exact Hsent|]. intros ev Hev s Hs.
    destruct Hev as [_ Hev]; [by destruct ev|]. congruence.
Qed.

Lemma session_is_never_empty_witness :
  let w := run first_call_sent
             [Reply 0 (BatchReplied
                         (reply_with (Some EmptyString) [] [ItemReply "ok"]));
              Submit (getFolderAs 2 "b"); Submit (getFolder 3); Tick] in
  sessionId (client w) ≠ EmptyString ∧ Forall call_has_session (log w).
Proof.
  apply session_is_never_empty.
  apply reachable_run.
  apply (reachable_run [Submit (getFolder 1); Tick]).
  apply (reachable_boot "localhost" "/service/soap"
           {| zimbraOrigin := None; opt_soapPathname := None;
              opt_notificationHandler := Some (quiet_handler 7) |}).
Defined.

(** ** When calls are made *)

Lemma no_call_has_request (ev : Event) :
  is_call ev = false → call_has_request ev.
Proof. by destruct ev. Qed.

Lemma step_calls_have_requests (w : World) (a : Action) :
  loaders_as_constructed (client w) →
  ∃ evs, log (step w a) = log w ++ evs ∧ Forall call_has_request evs.
Proof.
  intros Hl. pose proof Hl as (L1 & L2 & L3 & L4 & L5).
  destruct a as [options| |id o]; simpl.
  - unfold jsonRequest, load.
    destruct (truthy _); cbn [loader];
      (destruct (DataLoader.cached _ _); [exists []; by rewrite app_nil_r|]);
      simpl.
    + rewrite L5, L3. simpl. eexists. split; [reflexivity|].
      constructor; [|done]. simpl. rewrite L5. by eexists.
    + rewrite L1. exists []. rewrite app_nil_r. by destruct (decide _).
  - rewrite (tick_as_constructed w Hl).
    destruct (DataLoader.queue (batchDataLoader (client w))) as [|e q] eqn:Hq.
    + exists []. by rewrite app_nil_r.
    + eexists. split; [reflexivity|]. constructor; [|done].
      simpl. by rewrite Hq.
  - destruct (complete_sends id o w) as (evs & Hlog & Hquiet).
    exists evs. split; [done|].
    eapply Forall_impl; [exact Hquiet|]. apply no_call_has_request.
Qed.

(** X4.  No transport call is ever made for nothing: every batch call in the
    log of a client carries at least one request, and every single call
    carries its request. *)
Theorem no_call_is_empty (w : World) :
  reachable w → Forall call_has_request (log w).
Proof.
  induction 1 as [hostname pathname options|w a Hreach IH]; [by constructor|].
  destruct (reachable_invariant w Hreach) as [Hl _].
  destruct (step_calls_have_requests w a Hl) as (evs & -> & Hevs).
  by apply Forall_app.
Qed.

Lemma no_call_is_empty_witness :
  Forall call_has_request
    (log (run (boot sample_client)
            [Tick; Submit (getFolder 1); Tick; Tick;
             Submit (getFolderAs 2 "b"); Tick])).
Proof.
  apply no_call_is_empty.
  apply reachable_run.
  apply (reachable_boot "localhost" "/service/soap"
           {| zimbraOrigin := None; opt_soapPathname := None;
              opt_notificationHandler := Some (quiet_handler 7) |}).
Defined.

(** X5.  An unscoped request is never sent by its submission: submitting it
    logs nothing and puts no call in flight, whether the loader knows the
    object or not.  The end of the tick sends at most one call, and none
    when the batch loader's queue is empty. *)
Theorem unscoped_requests_wait_for_the_tick (w : World) :
  reachable w →
  (∀ o, ¬ scoped o →
     log (jsonRequest w o).1 = log w ∧
     in_flight (jsonRequest w o).1 = in_flight w) ∧
  length (since w (tick w)) ≤ 1 ∧
  (DataLoader.queue (batchDataLoader (client w)) = [] → tick w = w).
Proof.
  intros Hreach.
  destruct (reachable_invariant w Hreach) as [Hl _].
  pose proof Hl as (L1 & L2 & _).
  split; [|split].
  - intros o Hun.
    destruct (DataLoader.promiseCache (batchDataLoader (client w)) !! oid o)
      as [p|] eqn:Hc.
    + unfold jsonRequest. rewrite (not_scoped_truthy o Hun).
      by rewrite (load_hit Batching w o p L2 Hc).
    + by rewrite (submit_unscoped_miss w o Hun L1 L2 Hc).
  - rewrite (tick_as_constructed w Hl).
    destruct (DataLoader.queue (batchDataLoader (client w))).
    + rewrite since_refl. simpl. lia.
    + rewrite (since_app w _ [handler_request Batching (next_call w)
                 (with_loader Batching
                    (DataLoader.with_queue [] (batchDataLoader (client w)))
                    (client w))
                 (DataLoader.keys (DataLoader.queue
                    (batchDataLoader (client w))))]).
      * simpl. lia.
      * reflexivity.
  - intros Hq. rewrite (tick_as_constructed w Hl). by rewrite Hq.
Qed.

Lemma unscoped_requests_wait_for_the_tick_witness :
  (∀ o, ¬ scoped o →
     log (jsonRequest three_in_flight o).1 = log three_in_flight ∧
     in_flight (jsonRequest three_in_flight o).1 = in_flight three_in_flight) ∧
  length (since three_in_flight (tick three_in_flight)) ≤ 1 ∧
  (DataLoader.queue (batchDataLoader (client three_in_flight)) = [] →
   tick three_in_flight = three_in_flight).
Proof.
  apply unscoped_requests_wait_for_the_tick.
  apply (reachable_run [Submit (getFolder 1); Submit (getFolder 2);
                        Submit (getFolder 3); Tick]).
  apply (reachable_boot "localhost" "/service/soap"
           {| zimbraOrigin := None; opt_soapPathname := None;
              opt_notificationHandler := Some (quiet_handler 7) |}).
Defined.

(** ** What the loader remembers *)

Lemma foldl_clear_lookup (ks : list JsonRequestOptions) l (k : ref) :
  DataLoader.promiseCache
    (foldl (fun l' k' => DataLoader.clear k' l') l ks) !! k =
    if decide (k ∈ map oid ks) then None else DataLoader.promiseCache l !! k.
Proof.
  revert l. induction ks as [|a ks IH]; intros l.
  { done. }
  change (foldl (fun l' k' => DataLoader.clear k' l') l (a :: ks))
    with (foldl (fun l' k' => DataLoader.clear k' l') (DataLoader.clear a l) ks).
  change (map oid (a :: ks)) with (oid a :: map oid ks).
  rewrite IH. simpl.
  destruct (decide (k ∈ map oid ks)) as [Hin|Hnin];
    destruct (decide (k ∈ oid a :: map oid ks)) as [Hin'|Hnin']; try done.
  - exfalso. apply Hnin'. by apply list_elem_of_further.
  - apply elem_of_cons in Hin' as [->|Hin']; [|done].
    apply lookup_delete_eq.
  - apply lookup_delete_ne. intros Heq. apply Hnin'. rewrite Heq.
    apply list_elem_of_here.
Qed.

Lemma failedDispatch_forgets l (q : list DataLoader.QueueEntry) (e : Error)
    (entry : DataLoader.QueueEntry) :
  entry ∈ q →
  DataLoader.promiseCache (DataLoader.failedDispatch l q e).1
    !! oid (DataLoader.key entry) = None.
Proof.
  intros Hin. simpl. rewrite foldl_clear_lookup. rewrite decide_True; [done|].
  unfold DataLoader.keys. rewrite <- list_fmap_compose.
  by apply (list_elem_of_fmap_2 (oid ∘ DataLoader.key)).
Qed.

Lemma promiseCache_with_loader_other (which other : Loader) l
    (this : ZimbraBatchClient) :
  which ≠ other →
  loader other (with_loader which l this) = loader other this.
Proof. by destruct which, other. Qed.

(** X6.  When the reply to a batch lists another number of items than the
    batch had requests and the notification handler, if invoked, returns, no
    caller is resolved: each one is rejected, in queue order, with the type
    error the loader throws for these keys and these values.  The session
    token and the notification of that reply are applied all the same, and
    the loader forgets the objects of the batch. *)
Theorem miscounted_reply_rejects_every_caller (w : World) (id : call)
    (q : list DataLoader.QueueEntry) (response : BatchRequestResponse) :
  in_flight w !! id = Some {| via := Batching; entries := q |} →
  length (requests response) ≠ length q →
  handler_returns (client w) (b_header response) →
  let w' := complete id (BatchReplied response) w in
  let mismatch :=
    DataLoader.length_mismatch (DataLoader.keys q)
      (map item_value (requests response)) in
  since w w' =
    (batchDataHandler_then (client w) response).1.2 ++
    map (fun entry => Rejected (DataLoader.settle entry) mismatch) q ∧
  sessionId (client w') =
    sessionId (batchDataHandler_then (client w) response).1.1 ∧
  ∀ entry, entry ∈ q →
    DataLoader.promiseCache (batchDataLoader (client w'))
      !! oid (DataLoader.key entry) = None.
Proof.
  intros Hf Hlen Hret w' mismatch.
  set (this1 := (batchDataHandler_then (client w) response).1.1).
  set (evs := (batchDataHandler_then (client w) response).1.2).
  assert (Hw : w' =
    {| client := with_loader Batching
         (DataLoader.failedDispatch (batchDataLoader this1) q mismatch).1 this1;
       next_promise := next_promise w; next_call := next_call w;
       in_flight := delete id (in_flight w);
       log := log w ++ evs ++
              map (fun entry => Rejected (DataLoader.settle entry) mismatch)
                q |}).
  { unfold w'.
    rewrite (complete_in_flight id _ w _ _ _ _ Hf
               (batch_callback_settled (client w) response Hret)).
    cbn [via entries loader]. unfold DataLoader.settle_batch.
    rewrite decide_False; [done|].
    unfold DataLoader.keys. by rewrite !length_map. }
  split; [apply since_app; by rewrite Hw|].
  rewrite Hw. split; [done|].
  intros entry Hin. cbn [client with_loader with_batchDataLoader batchDataLoader].
  by apply failedDispatch_forgets.
Qed.

Lemma miscounted_reply_rejects_every_caller_witness :
  let response := reply_with (Some "s2"%string) [] [ItemReply "inbox"] in
  let w' := complete 0 (BatchReplied response) three_in_flight in
  let mismatch :=
    DataLoader.length_mismatch (DataLoader.keys three_entries)
      (map item_value (requests response)) in
  since three_in_flight w' =
    (batchDataHandler_then (client three_in_flight) response).1.2 ++
    map (fun entry => Rejected (DataLoader.settle entry) mismatch)
      three_entries ∧
  sessionId (client w') =
    sessionId (batchDataHandler_then (client three_in_flight) response).1.1 ∧
  ∀ entry, entry ∈ three_entries →
    DataLoader.promiseCache (batchDataLoader (client w'))
      !! oid (DataLoader.key entry) = None.
Proof.
  apply (miscounted_reply_rejects_every_caller three_in_flight 0 three_entries
           (reply_with (Some "s2"%string) [] [ItemReply "inbox"])).
  - vm_compute. reflexivity.
  - simpl. lia.
  - intros n handler Hn. discriminate Hn.
Defined.

(** X7.  After a transport failure the loader has forgotten every request
    object of the failed call: submitting the same object again is a cache
    miss and gets a new promise, so the caller can try again. *)
Theorem transport_failure_allows_retry (w : World) (id : call) (f : InFlight)
    (e : Error) (entry : DataLoader.QueueEntry) :
  in_flight w !! id = Some f →
  entry ∈ entries f →
  let w' := complete id (Failed e) w in
  DataLoader.cached (loader (via f) (client w')) (DataLoader.key entry) = None ∧
  (load (via f) w' (DataLoader.key entry)).2 = next_promise w'.
Proof.
  intros Hf Hin w'.
  assert (Hw : loader (via f) (client w') =
               (DataLoader.failedDispatch (loader (via f) (client w))
                  (entries f) e).1).
  { unfold w'.
    assert (Hh : handler_settled (via f) (client w) (Failed e) =
                 Some (client w, [], inl e)) by done.
    rewrite (complete_in_flight id _ w f (client w) [] (inl e) Hf Hh).
    cbn [DataLoader.settle_batch].
    destruct (DataLoader.failedDispatch _ _ _) eqn:Hfd. simpl.
    apply loader_with_loader. }
  assert (Hmiss : DataLoader.cached (loader (via f) (client w'))
                    (DataLoader.key entry) = None).
  { unfold DataLoader.cached. rewrite Hw.
    rewrite (failedDispatch_forgets _ _ _ entry Hin).
    by destruct (DataLoader.cache _). }
  split; [done|]. unfold load. by rewrite Hmiss.
Qed.

Lemma transport_failure_allows_retry_witness :
  let w' := complete 0 (Failed (Fault "network")) three_in_flight in
  DataLoader.cached (loader Batching (client w')) (getFolder 2) = None ∧
  (load Batching w' (getFolder 2)).2 = next_promise w'.
Proof.
  apply (transport_failure_allows_retry three_in_flight 0
           {| via := Batching; entries := three_entries |}
           (Fault "network")
           {| DataLoader.key := getFolder 2; DataLoader.settle := 1 |}).
  - vm_compute. reflexivity.
  - apply list_elem_of_further, list_elem_of_here.
Defined.

(** X8.  A reply that lists one item per request, during whose callback
    the notification handler does not throw, changes neither cache,
    whatever its items are.  A request object whose item failed thus stays
    memoised: submitting that object again returns the promise already
    rejected and sends nothing. *)
Theorem answered_requests_stay_memoised (w : World) (id : call)
    (q : list DataLoader.QueueEntry) (response : BatchRequestResponse) :
  reachable w →
  in_flight w !! id = Some {| via := Batching; entries := q |} →
  answers_each_request (DataLoader.keys q) response →
  handler_returns (client w) (b_header response) →
  let w' := complete id (BatchReplied response) w in
  batchDataLoader (client w') = batchDataLoader (client w) ∧
  dataLoader (client w') = dataLoader (client w) ∧
  ∀ o p, ¬ scoped o →
    DataLoader.promiseCache (batchDataLoader (client w)) !! oid o = Some p →
    jsonRequest w' o = (w', p).
Proof.
  intros Hreach Hf Hlen Hret w'.
  destruct (reachable_invariant w Hreach) as [(_ & L2 & _) _].
  pose proof (batch_callback_settled (client w) response Hret) as Hh.
  set (this1 := (batchDataHandler_then (client w) response).1.1) in *.
  destruct (handler_settled_loaders _ _ _ _ _ _ Hh) as [Hb Hd].
  assert (Hw : client w' = with_loader Batching (batchDataLoader this1) this1).
  { unfold w'. rewrite (complete_in_flight id _ w _ _ _ _ Hf Hh).
    cbn [via entries loader]. unfold DataLoader.settle_batch.
    rewrite decide_True; [done|]. by rewrite length_map. }
  assert (Hbatch : batchDataLoader (client w') = batchDataLoader (client w)).
  { by rewrite Hw. }
  split; [done|]. split; [by rewrite Hw|].
  intros o p Hun Hhit. unfold jsonRequest. rewrite (not_scoped_truthy o Hun).
  apply load_hit; cbn [loader]; by rewrite Hbatch.
Qed.

Lemma answered_requests_stay_memoised_witness :
  let w' := complete 0 (BatchReplied mixed_reply) three_in_flight in
  batchDataLoader (client w') = batchDataLoader (client three_in_flight) ∧
  dataLoader (client w') = dataLoader (client three_in_flight) ∧
  ∀ o p, ¬ scoped o →
    DataLoader.promiseCache (batchDataLoader (client three_in_flight))
      !! oid o = Some p →
    jsonRequest w' o = (w', p).
Proof.
  apply (answered_requests_stay_memoised three_in_flight 0 three_entries
           mixed_reply).
  - apply (reachable_run [Submit (getFolder 1); Submit (getFolder 2);
                          Submit (getFolder 3); Tick]).
    apply (reachable_boot "localhost" "/service/soap"
             {| zimbraOrigin := None; opt_soapPathname := None;
                opt_notificationHandler := Some (quiet_handler 7) |}).
  - vm_compute. reflexivity.
  - reflexivity.
  - intros n handler Hn Hh. vm_compute in Hh. by injection Hh as <-.
Defined.

(** The failed first item of the mixed reply, submitted again: the promise
    rejected before comes back and no call follows. *)
Example failed_item_is_not_retried :
  let w' := complete 0 (BatchReplied mixed_reply) three_in_flight in
  (jsonRequest w' (getFolder 1)).2 = 0 ∧
  since w' (tick (jsonRequest w' (getFolder 1)).1) = [].
Proof. vm_compute. done. Qed.

(** ** Where the promises are *)

Lemma delivered_app (a b : list Event) :
  delivered (a ++ b) = delivered a ++ delivered b.
Proof. apply omap_app. Qed.

Lemma delivered_cons (ev : Event) (evs : list Event) :
  delivered (ev :: evs) =
    match delivered_promise ev with
    | Some p => p :: delivered evs
    | None => delivered evs
    end.
Proof. done. Qed.

Lemma delivered_none (evs : list Event) :
  Forall (fun ev => is_delivery ev = false) evs → delivered evs = [].
Proof.
  induction 1 as [|ev evs Hev _ IH]; [done|].
  rewrite delivered_cons, IH. by destruct ev.
Qed.

Lemma delivered_rejections (q : list DataLoader.QueueEntry) (e : Error) :
  delivered (map (fun entry => Rejected (DataLoader.settle entry) e) q) =
    map DataLoader.settle q.
Proof.
  induction q as [|entry q IH]; [done|].
  cbn [map]. by rewrite delivered_cons, IH.
Qed.

Lemma delivered_settled (q : list DataLoader.QueueEntry)
    (values : list Value) :
  length values = length q →
  delivered (zip_with DataLoader.settle_entry q values) =
    map DataLoader.settle q.
Proof.
  revert values. induction q as [|entry q IH]; intros [|v values] Hlen;
    simplify_eq; [done|].
  cbn [zip_with map]. rewrite delivered_cons, IH by done. by destruct v.
Qed.

Lemma delivered_settle_batch l (q : list DataLoader.QueueEntry)
    (outcome : Error + list Value) :
  delivered (DataLoader.settle_batch l q outcome).2 = map DataLoader.settle q.
Proof.
  unfold DataLoader.settle_batch. destruct outcome as [e|values].
  - apply delivered_rejections.
  - case_decide as Hlen; [|apply delivered_rejections].
    apply delivered_settled. unfold DataLoader.keys in Hlen.
    by rewrite length_map in Hlen.
Qed.

Lemma handler_settled_delivers_nothing (which : Loader)
    (this this1 : ZimbraBatchClient) (o : TransportOutcome) evs outcome :
  handler_settled which this o = Some (this1, evs, outcome) →
  delivered evs = [].
Proof.
  intros Hh. apply delivered_none.
  destruct o as [e|r|r], which; simplify_eq/=; try done.
  - rewrite batchDataHandler_then_eq in Hh. simpl in Hh.
    injection Hh as _ <- _. apply reply_updates.
  - rewrite dataHandler_then_eq in Hh. simpl in Hh.
    injection Hh as _ <- _. apply reply_updates.
Qed.

Lemma awaiting_insert (w : World) (id : call) (f : InFlight) :
  in_flight w !! id = None →
  map_to_list (<[id := f]> (in_flight w)) ≫= (fun kf => served kf.2)
    ≡ₚ served f ++ awaiting w.
Proof.
  intros Hnone. rewrite (map_to_list_insert _ _ _ Hnone). by rewrite bind_cons.
Qed.

Lemma awaiting_delete (w : World) (id : call) (f : InFlight) :
  in_flight w !! id = Some f →
  served f ++ (map_to_list (delete id (in_flight w)) ≫= (fun kf => served kf.2))
    ≡ₚ awaiting w.
Proof.
  intros Hsome. unfold awaiting.
  rewrite <- (map_to_list_delete _ _ _ Hsome). by rewrite bind_cons.
Qed.

Lemma next_call_is_free (w : World) :
  calls_numbered w → in_flight w !! next_call w = None.
Proof.
  intros Hn. destruct (in_flight w !! next_call w) eqn:Hl; [|done].
  assert (next_call w < next_call w) by (apply Hn; eauto). lia.
Qed.

Lemma dispatchQueue_accounted (which : Loader) (w : World) :
  calls_numbered w → accounted w →
  calls_numbered (dispatchQueue which w) ∧ accounted (dispatchQueue which w).
Proof.
  intros Hn Hacc. split.
  - intros id. simpl. intros [f Hf].
    apply lookup_insert_Some in Hf as [[<- _]|[_ Hf]]; [lia|].
    assert (id < next_call w) by (apply Hn; eauto). lia.
  - unfold accounted in *. rewrite <- Hacc.
    unfold awaiting at 1. cbn [in_flight dispatchQueue].
    rewrite (awaiting_insert w _ _ (next_call_is_free w Hn)).
    cbn [log dispatchQueue]. rewrite delivered_app.
    assert (Hcall : delivered
              [handler_request which (next_call w)
                 (with_loader which
                    (DataLoader.with_queue [] (loader which (client w)))
                    (client w))
                 (DataLoader.keys (DataLoader.queue (loader which (client w))))]
              = []).
    { by destruct which. }
    rewrite Hcall. unfold served, queued. cbn [entries].
    destruct which; simpl; solve_Permutation.
Qed.

Lemma load_accounted (which : Loader) (w : World) (k : JsonRequestOptions) :
  calls_numbered w → accounted w →
  calls_numbered (load which w k).1 ∧ accounted (load which w k).1.
Proof.
  intros Hn Hacc. unfold load.
  destruct (DataLoader.cached _ _); [done|].
  set (w1 := {| client := _ |}).
  assert (H1 : calls_numbered w1 ∧ accounted w1).
  { split; [done|]. unfold accounted in *. cbn [w1 next_promise log].
    rewrite seq_S, <- Hacc. simpl.
    unfold awaiting, queued. cbn [in_flight client].
    destruct which; simpl; rewrite ?map_app; simpl; solve_Permutation. }
  simpl. case_decide; [destruct (DataLoader.batch _)|]; try done.
  destruct H1. by apply dispatchQueue_accounted.
Qed.

Lemma run_scheduled_accounted (which : Loader) (w : World) :
  calls_numbered w → accounted w →
  calls_numbered (run_scheduled which w) ∧ accounted (run_scheduled which w).
Proof.
  intros Hn Hacc. unfold run_scheduled.
  destruct (DataLoader.batch _); [|done].
  destruct (DataLoader.queue _) eqn:Hq; [done|].
  by apply dispatchQueue_accounted.
Qed.

Lemma complete_accounted (id : call) (o : TransportOutcome) (w : World) :
  calls_numbered w → accounted w →
  calls_numbered (complete id o w) ∧ accounted (complete id o w).
Proof.
  intros Hn Hacc. unfold complete.
  destruct (in_flight w !! id) as [f|] eqn:Hf; [|done].
  destruct (handler_settled _ _ _) as [[[this1 evs] outcome]|] eqn:Hh; [|done].
  pose proof (handler_settled_loaders _ _ _ _ _ _ Hh) as [Hb Hd].
  pose proof (handler_settled_delivers_nothing _ _ _ _ _ _ Hh) as Hevs.
  pose proof (settle_batch_shape (entries f) (loader (via f) this1) outcome)
    as Hshape.
  pose proof (delivered_settle_batch (loader (via f) this1) (entries f) outcome)
    as Hdel.
  destruct (DataLoader.settle_batch _ _ _) as [l' settled].
  simpl in Hshape, Hdel. destruct Hshape as (_ & _ & Hq).
  split.
  - intros id'. simpl. intros [f' Hf'].
    apply lookup_delete_Some in Hf' as [_ Hf']. apply Hn. eauto.
  - unfold accounted in *. rewrite <- Hacc.
    rewrite <- (awaiting_delete w id f Hf).
    unfold awaiting at 1. cbn [in_flight log next_promise].
    rewrite !delivered_app, Hevs, Hdel.
    assert (Hqueued :
      queued {| client := with_loader (via f) l' this1;
                next_promise := next_promise w; next_call := next_call w;
                in_flight := delete id (in_flight w);
                log := log w ++ evs ++ settled |} = queued w).
    { unfold queued. cbn [client].
      destruct (via f); simpl in *; by rewrite ?Hq, ?Hb, ?Hd. }
    rewrite Hqueued. unfold served. simpl. solve_Permutation.
Qed.

Lemma reachable_accounted (w : World) :
  reachable w → calls_numbered w ∧ accounted w.
Proof.
  induction 1 as [hostname pathname options|w a _ [Hn Hacc]].
  - split.
    + intros id [f Hf]. simpl in Hf. by rewrite lookup_empty in Hf.
    + unfold accounted, awaiting, queued. simpl.
      by rewrite map_to_list_empty.
  - destruct a as [options| |id o]; simpl.
    + unfold jsonRequest. destruct (truthy _); by apply load_accounted.
    + unfold tick.
      destruct (run_scheduled_accounted Batching w Hn Hacc).
      by apply run_scheduled_accounted.
    + by apply complete_accounted.
Qed.

(** X9.  Every promise the client has handed out is at any time in exactly
    one place: waiting in a loader's queue, served by a call that awaits its
    reply, or settled by the log.  So no caller's promise is settled twice,
    none is lost, and once nothing is queued and no call is in flight every
    caller has been answered. *)
Theorem every_promise_is_settled_once (w : World) :
  reachable w →
  delivered (log w) ++ awaiting w ++ queued w ≡ₚ seq 0 (next_promise w) ∧
  NoDup (delivered (log w)) ∧
  (in_flight w = ∅ →
   DataLoader.queue (batchDataLoader (client w)) = [] →
   ∀ p, p < next_promise w → p ∈ delivered (log w)).
Proof.
  intros Hreach.
  destruct (reachable_accounted w Hreach) as [_ Hacc].
  destruct (reachable_invariant w Hreach) as [(_ & _ & _ & _ & Hd) _].
  unfold accounted in Hacc.
  assert (Hnodup : NoDup (delivered (log w) ++ awaiting w ++ queued w)).
  { rewrite Hacc. apply NoDup_ListNoDup, List.seq_NoDup. }
  split; [done|]. split.
  - by apply NoDup_app in Hnodup as [? _].
  - intros Hempty Hq p Hp.
    assert (Hin : p ∈ delivered (log w) ++ awaiting w ++ queued w).
    { rewrite Hacc. apply list_elem_of_In, List.in_seq. lia. }
    unfold awaiting, queued in Hin.
    rewrite Hempty, map_to_list_empty, Hq, Hd in Hin. simpl in Hin.
    by rewrite app_nil_r in Hin.
Qed.

Lemma every_promise_is_settled_once_witness :
  let w := complete 0 (BatchReplied mixed_reply) three_in_flight in
  delivered (log w) ++ awaiting w ++ queued w ≡ₚ seq 0 (next_promise w) ∧
  NoDup (delivered (log w)) ∧
  (in_flight w = ∅ →
   DataLoader.queue (batchDataLoader (client w)) = [] →
   ∀ p, p < next_promise w → p ∈ delivered (log w)).
Proof.
  apply every_promise_is_settled_once.
  apply (reachable_step three_in_flight (Reply 0 (BatchReplied mixed_reply))).
  apply (reachable_run [Submit (getFolder 1); Submit (getFolder 2);
                        Submit (getFolder 3); Tick]).
  apply (reachable_boot "localhost" "/service/soap"
           {| zimbraOrigin := None; opt_soapPathname := None;
              opt_notificationHandler := Some (quiet_handler 7) |}).
Defined.

(** ** The bodies of [getMessage] and [login] *)

Lemma getMessage_m (o : GetMessageOptions) :
  ∃ members, member "m" (getMessage_body o) = Some (JObject members) ∧
    member "html" (JObject members) =
      Some (JNumber (html_flag (gm_html o) (gm_raw o))) ∧
    member "raw" (JObject members) =
      Some (JNumber match gm_raw o with Some true => 1 | _ => 0 end) ∧
    member "max" (JObject members) =
      Some (JNumber (max_or_default (gm_max o))) ∧
    member "read" (JObject members) =
      Some match gm_read o with Some true => JNumber 1 | _ => JUndefined end ∧
    member "ridZ" (JObject members) =
      if truthy (gm_ridZ o) then JString <$> gm_ridZ o else None.
Proof.
  destruct o as [id html raw headers read max ridZ].
  unfold getMessage_body, when_truthy. simpl gm_ridZ.
  destruct (truthy ridZ) eqn:Ht.
  - destruct ridZ as [t|]; [|done]. eexists. split; [reflexivity|]. done.
  - eexists. split; [reflexivity|]. done.
Qed.

(** X10.  The message request of [getMessage] never asks for the HTML body
    and the raw message at once: its [html] flag is 1 only when [html] is
    not [false] and [raw] is not [true], its [raw] flag is 1 exactly when
    [raw] is [true], and so whenever one flag is 1 the other is 0.  Its
    [read] member is 1 exactly when [read] is [true] and is undefined
    otherwise, never 0. *)
Theorem getMessage_never_asks_html_and_raw (o : GetMessageOptions) :
  ∃ m, member "m" (getMessage_body o) = Some m ∧
    (member "html" m = Some (JNumber 1) → member "raw" m = Some (JNumber 0)) ∧
    (member "raw" m = Some (JNumber 1) → member "html" m = Some (JNumber 0)) ∧
    (member "raw" m = Some (JNumber 1) ↔ gm_raw o = Some true) ∧
    (member "html" m = Some (JNumber 1) ↔
       gm_html o ≠ Some false ∧ gm_raw o ≠ Some true) ∧
    (member "read" m = Some (JNumber 1) ↔ gm_read o = Some true) ∧
    member "read" m ≠ Some (JNumber 0).
Proof.
  destruct (getMessage_m o) as (members & Hm & Hhtml & Hraw & _ & Hread & _).
  exists (JObject members). split; [done|].
  rewrite Hhtml, Hraw, Hread.
  destruct (gm_html o) as [[]|], (gm_raw o) as [[]|], (gm_read o) as [[]|];
    simpl; repeat split; try done; intros; simplify_eq; try done;
    try (destruct_and?; done).
Qed.

(** X11.  The size limit [getMessage] sends is never 0: a limit that is
    missing, NaN or 0 is replaced by 250000, and any other integer limit
    is sent as given. *)
Theorem getMessage_max_is_never_zero (o : GetMessageOptions) :
  ∃ m, member "m" (getMessage_body o) = Some m ∧
    member "max" m ≠ Some (JNumber 0) ∧
    (gm_max o = None ∨ gm_max o = Some NaN ∨ gm_max o = Some (Integer 0) →
     member "max" m = Some (JNumber 250000)) ∧
    (∀ n, gm_max o = Some (Integer n) → n ≠ 0%Z →
       member "max" m = Some (JNumber n)).
Proof.
  destruct (getMessage_m o) as (members & Hm & _ & _ & Hmax & _).
  exists (JObject members). split; [done|]. rewrite Hmax.
  unfold max_or_default. split; [|split].
  - destruct (gm_max o) as [[|n]|]; [done| |done].
    destruct (Z.eqb_spec n 0); [done|]. congruence.
  - by intros [->|[->| ->]].
  - intros n -> Hn. destruct (Z.eqb_spec n 0); done.
Qed.

(** A limit that is NaN, as [parseInt] gives on a string that is no number,
    goes out as the default. *)
Example getMessage_with_NaN_limit :
  ∃ m, member "m"
         (getMessage_body
            {| gm_id := "257"; gm_html := None; gm_raw := None;
               gm_headers := None; gm_read := None; gm_max := Some NaN;
               gm_ridZ := None |}) = Some m ∧
       member "max" m = Some (JNumber 250000).
Proof. eexists. split; reflexivity. Qed.

(** X12.  [login] never sends an empty credential: its body has a
    [password] member exactly when the password is a non-empty string, a
    [recoveryCode] member (with [verifyAccount] true) exactly when the
    recovery code is a non-empty string, and always the account by name. *)
Theorem login_omits_empty_credentials (o : LoginOptions) :
  member "account" (login_body o) =
    Some (object [("by"%string, JString "name");
                  ("_content"%string, JString (username o))]) ∧
  member "password" (login_body o) =
    match password o with
    | Some p => if decide (p = EmptyString) then None else Some (JString p)
    | None => None
    end ∧
  member "recoveryCode" (login_body o) =
    match recoveryCode o with
    | Some c =>
        if decide (c = EmptyString) then None
        else Some (object [("verifyAccount"%string, JBoolean true);
                           ("_content"%string, JString c)])
    | None => None
    end ∧
  member "password" (login_body o) ≠ Some (JString EmptyString).
Proof.
  destruct o as [user pw rc]. unfold login_body, when_truthy, truthy. simpl.
  assert (Hcases : ∀ t : string,
    negb (String.eqb t EmptyString) = if decide (t = EmptyString) then false else true).
  { intros t. destruct (String.eqb_spec t EmptyString); by case_decide. }
  destruct pw as [p|], rc as [c|]; rewrite ?Hcases;
    repeat case_decide; simpl; repeat split; try done; congruence.
Qed.

(** ** Requests made from object literals *)

Lemma dispatchQueue_remembers (which other : Loader) (w : World) :
  DataLoader.promiseCache (loader other (client (dispatchQueue which w))) =
  DataLoader.promiseCache (loader other (client w)).
Proof. by destruct which, other. Qed.

Lemma load_remembers (which other : Loader) (w : World)
    (k : JsonRequestOptions) (a : ref) :
  is_Some (DataLoader.promiseCache (loader other (client (load which w k).1)) !! a) →
  a = oid k ∨ is_Some (DataLoader.promiseCache (loader other (client w)) !! a).
Proof.
  unfold load. destruct (DataLoader.cached _ _); [by right|].
  set (w1 := {| client := _ |}).
  assert (H1 : is_Some (DataLoader.promiseCache (loader other (client w1)) !! a) →
               a = oid k ∨
               is_Some (DataLoader.promiseCache (loader other (client w)) !! a)).
  { unfold w1. destruct which, other; simpl; try (by right);
      destruct (DataLoader.cache _); try (by right);
      rewrite lookup_insert; case_decide; eauto. }
  simpl. case_decide; [destruct (DataLoader.batch _)|]; try done.
  by rewrite dispatchQueue_remembers.
Qed.

Lemma run_scheduled_remembers (which other : Loader) (w : World) :
  DataLoader.promiseCache (loader other (client (run_scheduled which w))) =
  DataLoader.promiseCache (loader other (client w)).
Proof.
  unfold run_scheduled. destruct (DataLoader.batch _); [|done].
  destruct (DataLoader.queue _); [done|apply dispatchQueue_remembers].
Qed.

Lemma settle_batch_remembers l (q : list DataLoader.QueueEntry)
    (outcome : Error + list Value) (a : ref) :
  is_Some (DataLoader.promiseCache (DataLoader.settle_batch l q outcome).1 !! a) →
  is_Some (DataLoader.promiseCache l !! a).
Proof.
  assert (Hfail : ∀ e,
    is_Some (DataLoader.promiseCache (DataLoader.failedDispatch l q e).1 !! a) →
    is_Some (DataLoader.promiseCache l !! a)).
  { intros e. simpl. rewrite foldl_clear_lookup.
    case_decide; [by intros [? ?]|done]. }
  unfold DataLoader.settle_batch. destruct outcome as [e|values]; [apply Hfail|].
  case_decide; [done|apply Hfail].
Qed.

Lemma complete_remembers (other : Loader) (id : call) (o : TransportOutcome)
    (w : World) (a : ref) :
  is_Some (DataLoader.promiseCache (loader other (client (complete id o w))) !! a) →
  is_Some (DataLoader.promiseCache (loader other (client w)) !! a).
Proof.
  unfold complete. destruct (in_flight w !! id) as [f|]; [|done].
  destruct (handler_settled _ _ _) as [[[this1 evs] outcome]|] eqn:Hh; [|done].
  destruct (handler_settled_loaders _ _ _ _ _ _ Hh) as [Hb Hd].
  pose proof (settle_batch_remembers (loader (via f) this1) (entries f) outcome a)
    as Hkeep.
  destruct (DataLoader.settle_batch _ _ _) as [l' settled]. simpl in *.
  destruct (via f), other; simpl in *; rewrite ?Hb, ?Hd in *; done.
Qed.

Lemma boot_allocated (this : ZimbraBatchClient) (top : ref) :
  DataLoader.promiseCache (batchDataLoader this) = ∅ →
  DataLoader.promiseCache (dataLoader this) = ∅ →
  allocated {| world := boot this; heap_top := top |}.
Proof.
  intros Hb Hd which k [p Hk]. destruct which; simpl in Hk;
    rewrite ?Hb, ?Hd in Hk; by rewrite lookup_empty in Hk.
Qed.

Lemma step_allocated (r : Runtime) (a : Action) :
  allocated r →
  match a with Submit o => oid o < heap_top r | _ => True end →
  allocated {| world := step (world r) a; heap_top := heap_top r |}.
Proof.
  intros Hall Ha which k. simpl. destruct a as [o| |id o]; simpl.
  - unfold jsonRequest. destruct (truthy _);
      intros [->|Hk]%load_remembers; try done; by apply (Hall which).
  - unfold tick. rewrite !run_scheduled_remembers. apply Hall.
  - intros Hk%complete_remembers. by apply (Hall which).
Qed.

Lemma literal_is_new (r : Runtime) (which : Loader) (l : Literal) :
  allocated r →
  DataLoader.promiseCache (loader which (client (world r)))
    !! oid (at_address (heap_top r) l) = None.
Proof.
  intros Hall. simpl.
  destruct (DataLoader.promiseCache _ !! heap_top r) eqn:Hhit; [|done].
  assert (heap_top r < heap_top r) by (apply (Hall which); eauto). lia.
Qed.

Lemma request_allocated (l : Literal) (r : Runtime) :
  allocated r → allocated (request l r).1.
Proof.
  intros Hall which k. unfold request.
  destruct (jsonRequest _ _) as [w' p] eqn:Hj. simpl.
  assert (Hw : w' = (jsonRequest (world r) (at_address (heap_top r) l)).1)
    by by rewrite Hj.
  rewrite Hw. unfold jsonRequest.
  destruct (truthy _); intros [->|Hk]%load_remembers; simpl; try lia;
    assert (k < heap_top r) by (by apply (Hall which)); lia.
Qed.

Lemma submit_miss_promise (w : World) (o : JsonRequestOptions) :
  loaders_as_constructed (client w) →
  DataLoader.promiseCache (batchDataLoader (client w)) !! oid o = None →
  DataLoader.promiseCache (dataLoader (client w)) !! oid o = None →
  (jsonRequest w o).2 = next_promise w ∧
  next_promise (jsonRequest w o).1 = S (next_promise w).
Proof.
  intros (L1 & L2 & L3 & L4 & L5) Hb Hd.
  unfold jsonRequest, load, DataLoader.cached.
  destruct (truthy _); cbn [loader].
  - rewrite L4, Hd. simpl. by rewrite L5, L3.
  - rewrite L2, Hb. simpl. rewrite L1. by destruct (decide _).
Qed.

Lemma request_spec (l : Literal) (r : Runtime) :
  reachable (world r) →
  allocated r →
  let r' := (request l r).1 in
  (request l r).2 = next_promise (world r) ∧
  next_promise (world r') = S (next_promise (world r)) ∧
  heap_top r' = S (heap_top r) ∧
  reachable (world r') ∧
  allocated r' ∧
  (if truthy (lit_accountName l)
   then since (world r) (world r') =
          [single_call_for (world r) (next_call (world r))
             (at_address (heap_top r) l)]
   else log (world r') = log (world r) ∧
        DataLoader.keys
          (DataLoader.queue (batchDataLoader (client (world r')))) =
        DataLoader.keys
          (DataLoader.queue (batchDataLoader (client (world r)))) ++
        [at_address (heap_top r) l]) ∧
  (∀ a, match a with Submit o => oid o < heap_top r | _ => True end →
        allocated {| world := step (world r) a; heap_top := heap_top r |}).
Proof.
  intros Hreach Hall r'.
  destruct (reachable_invariant (world r) Hreach) as [Hl _].
  pose proof (literal_is_new r Batching l Hall) as Hb.
  pose proof (literal_is_new r Single l Hall) as Hd.
  set (o := at_address (heap_top r) l) in *.
  destruct (submit_miss_promise (world r) o Hl Hb Hd) as [Hp Hnext].
  assert (Hr' : r' = {| world := (jsonRequest (world r) o).1;
                        heap_top := S (heap_top r) |}).
  { unfold r', request. fold o. by destruct (jsonRequest _ _). }
  assert (Hres : (request l r).2 = (jsonRequest (world r) o).2).
  { unfold request. fold o. by destruct (jsonRequest _ _). }
  rewrite Hres, Hr'. simpl.
  split; [done|]. split; [done|]. split; [done|].
  split; [apply (reachable_step (world r) (Submit o) Hreach)|].
  split.
  { rewrite <- Hr'. by apply request_allocated. }
  split; [|intros a; by apply step_allocated].
  destruct (truthy (lit_accountName l)) eqn:Ht.
  - assert (Hs : scoped o) by by apply truthy_spec.
    destruct (submit_scoped_miss (world r) o Hs Hl Hd) as (_ & Hlog & _).
    by apply since_app.
  - assert (Hu : ¬ scoped o).
    { intros Hs%truthy_spec. simpl in Hs. congruence. }
    destruct Hl as (L1 & L2 & _).
    rewrite (submit_unscoped_miss (world r) o Hu L1 L2 Hb). simpl.
    split; [done|]. unfold DataLoader.keys. by rewrite map_app.
Qed.

(** X13.  A request made from an object literal is never answered from the
    loader's memory.  Whatever was submitted before, the literal is a new
    object: it gets a new promise, and it is either sent at once in a call
    of its own (non-empty [accountName]) or appended to the batch queue
    (otherwise).  The property that makes it so, that the loaders remember
    only objects made earlier, is kept by literal requests, by ticks, by
    replies, and by submitting again any object made earlier. *)
Theorem literal_requests_are_never_memoised (l : Literal) (r : Runtime) :
  reachable (world r) →
  allocated r →
  let r' := (request l r).1 in
  (request l r).2 = next_promise (world r) ∧
  next_promise (world r') = S (next_promise (world r)) ∧
  heap_top r' = S (heap_top r) ∧
  reachable (world r') ∧
  allocated r' ∧
  (if truthy (lit_accountName l)
   then since (world r) (world r') =
          [single_call_for (world r) (next_call (world r))
             (at_address (heap_top r) l)]
   else log (world r') = log (world r) ∧
        DataLoader.keys
          (DataLoader.queue (batchDataLoader (client (world r')))) =
        DataLoader.keys
          (DataLoader.queue (batchDataLoader (client (world r)))) ++
        [at_address (heap_top r) l]) ∧
  (∀ a, match a with Submit o => oid o < heap_top r | _ => True end →
        allocated {| world := step (world r) a; heap_top := heap_top r |}).
Proof. apply request_spec. Qed.

Lemma literal_requests_are_never_memoised_witness :
  let l := {| lit_name := "NoOp"; lit_namespace := None;
              lit_body := None; lit_accountName := None |} in
  let r := busy_runtime in
  let r' := (request l r).1 in
  (request l r).2 = next_promise (world r) ∧
  next_promise (world r') = S (next_promise (world r)) ∧
  heap_top r' = S (heap_top r) ∧
  reachable (world r') ∧
  allocated r' ∧
  (if truthy (lit_accountName l)
   then since (world r) (world r') =
          [single_call_for (world r) (next_call (world r))
             (at_address (heap_top r) l)]
   else log (world r') = log (world r) ∧
        DataLoader.keys
          (DataLoader.queue (batchDataLoader (client (world r')))) =
        DataLoader.keys
          (DataLoader.queue (batchDataLoader (client (world r)))) ++
        [at_address (heap_top r) l]) ∧
  (∀ a, match a with Submit o => oid o < heap_top r | _ => True end →
        allocated {| world := step (world r) a; heap_top := heap_top r |}).
Proof.
  apply (literal_requests_are_never_memoised
           {| lit_name := "NoOp"; lit_namespace := None;
              lit_body := None; lit_accountName := None |}
           busy_runtime).
  - change (reachable
              (run (boot sample_client)
                 [Submit {| oid := 0; name := "NoOp"; namespace := None;
                            body := None; accountName := None |};
                  Submit (getFolderAs 1 "b"); Tick])).
    apply reachable_run.
    apply (reachable_boot "localhost" "/service/soap"
             {| zimbraOrigin := None; opt_soapPathname := None;
                opt_notificationHandler := Some (quiet_handler 7) |}).
  - apply (step_allocated _ Tick); [|exact I].
    apply request_allocated, request_allocated, boot_allocated; reflexivity.
Defined.

(** In that runtime both loaders remember an object, and the [NoOp] made
    next, equal in content to the one remembered, gets a promise of its
    own and a place of its own in the queue. *)
Example a_second_noop_is_not_answered_from_memory :
  let l := {| lit_name := "NoOp"; lit_namespace := None;
              lit_body := None; lit_accountName := None |} in
  DataLoader.promiseCache (batchDataLoader (client (world busy_runtime))) !! 0
    = Some 0 ∧
  DataLoader.promiseCache (dataLoader (client (world busy_runtime))) !! 1
    = Some 1 ∧
  (request l busy_runtime).2 = 2 ∧
  DataLoader.keys
    (DataLoader.queue
       (batchDataLoader (client (world (request l busy_runtime).1)))) =
    [at_address 2 l].
Proof. vm_compute. done. Qed.

(** X14.  The three appointment methods pass their account name on as it
    is.  With a non-empty account name the request is sent at once, in a
    call of its own that carries exactly this request and leaves the batch
    queue alone.  With the empty string as account name nothing is sent:
    the request joins the batch queue like any unscoped request. *)
Theorem appointment_methods_batch_an_empty_account
    (payload : JSON → RequestBody) (CalendarItemInput : Type)
    (denormalize : CalendarItemInput → JSON)
    (account : string) (appointment : CalendarItemInput) (r : Runtime) :
  reachable (world r) →
  allocated r →
  let behaves (method : Runtime → Runtime * promise) (l : Literal) :=
    let r' := (method r).1 in
    (account ≠ EmptyString →
       since (world r) (world r') =
         [single_call_for (world r) (next_call (world r))
            (at_address (heap_top r) l)] ∧
       batchDataLoader (client (world r')) = batchDataLoader (client (world r))) ∧
    (account = EmptyString →
       log (world r') = log (world r) ∧
       DataLoader.keys
         (DataLoader.queue (batchDataLoader (client (world r')))) =
       DataLoader.keys
         (DataLoader.queue (batchDataLoader (client (world r)))) ++
       [at_address (heap_top r) l]) in
  behaves (createAppointment payload CalendarItemInput denormalize
             account appointment)
    (createAppointment_literal payload CalendarItemInput denormalize
       account appointment) ∧
  behaves (createAppointmentException payload CalendarItemInput denormalize
             account appointment)
    (createAppointmentException_literal payload CalendarItemInput denormalize
       account appointment) ∧
  behaves (modifyAppointment payload CalendarItemInput denormalize
             account appointment)
    (modifyAppointment_literal payload CalendarItemInput denormalize
       account appointment).
Proof.
  intros Hreach Hall behaves.
  assert (Hany : ∀ l, lit_accountName l = Some account → behaves (request l) l).
  { intros l Hacc. unfold behaves.
    destruct (request_spec l r Hreach Hall) as (_ & _ & _ & _ & _ & Hroute & _).
    assert (Hw : world (request l r).1 =
                 (jsonRequest (world r) (at_address (heap_top r) l)).1).
    { unfold request. by destruct (jsonRequest _ _). }
    rewrite Hacc in Hroute. split.
    - intros Hne. assert (Ht : truthy (Some account) = true).
      { apply truthy_spec. eauto. }
      rewrite Ht in Hroute. split; [done|]. rewrite Hw.
      unfold jsonRequest. simpl. rewrite Hacc, Ht.
      apply (load_other_loader Single Batching). done.
    - intros ->. simpl in Hroute. done. }
  repeat split; by apply Hany.
Qed.

Lemma appointment_methods_batch_an_empty_account_witness :
  let r := {| world := boot sample_client; heap_top := 0 |} in
  let payload := fun _ : JSON => "appointment"%string in
  let denormalize := fun _ : unit => JObject [] in
  let behaves (method : Runtime → Runtime * promise) (l : Literal) :=
    let r' := (method r).1 in
    (EmptyString ≠ EmptyString →
       since (world r) (world r') =
         [single_call_for (world r) (next_call (world r))
            (at_address (heap_top r) l)] ∧
       batchDataLoader (client (world r')) = batchDataLoader (client (world r))) ∧
    (EmptyString = EmptyString →
       log (world r') = log (world r) ∧
       DataLoader.keys
         (DataLoader.queue (batchDataLoader (client (world r')))) =
       DataLoader.keys
         (DataLoader.queue (batchDataLoader (client (world r)))) ++
       [at_address (heap_top r) l]) in
  behaves (createAppointment payload unit denormalize EmptyString tt)
    (createAppointment_literal payload unit denormalize EmptyString tt) ∧
  behaves (createAppointmentException payload unit denormalize EmptyString tt)
    (createAppointmentException_literal payload unit denormalize
       EmptyString tt) ∧
  behaves (modifyAppointment payload unit denormalize EmptyString tt)
    (modifyAppointment_literal payload unit denormalize EmptyString tt).
Proof.
  apply (appointment_methods_batch_an_empty_account
           (fun _ : JSON => "appointment"%string) unit
           (fun _ : unit => JObject []) EmptyString tt
           {| world := boot sample_client; heap_top := 0 |}).
  - apply (reachable_boot "localhost" "/service/soap"
             {| zimbraOrigin := None; opt_soapPathname := None;
                opt_notificationHandler := Some (quiet_handler 7) |}).
  - intros which k [p Hk]. destruct which; simpl in Hk;
      by rewrite lookup_empty in Hk.
Defined.

(** An appointment made for account [b], and one made for no account. *)
Example createAppointment_for_an_account_and_for_none :
  let r := {| world := boot sample_client; heap_top := 0 |} in
  let create account :=
    createAppointment (fun _ => "appointment"%string) unit
      (fun _ => JObject []) account tt r in
  length (log (world (create "b"%string).1)) = 1 ∧
  length (log (world (create EmptyString).1)) = 0 ∧
  length (log (tick (world (create EmptyString).1))) = 1.
Proof. vm_compute. done. Qed.

Lemma request_each_unscoped {A : Type} (build : A → Literal) (xs : list A)
    (r : Runtime) :
  reachable (world r) →
  allocated r →
  (∀ x, truthy (lit_accountName (build x)) = false) →
  let res := request_each build xs r in
  res.2 = seq (next_promise (world r)) (length xs) ∧
  reachable (world res.1) ∧
  log (world res.1) = log (world r) ∧
  next_call (world res.1) = next_call (world r) ∧
  sessionId (client (world res.1)) = sessionId (client (world r)) ∧
  origin (client (world res.1)) = origin (client (world r)) ∧
  DataLoader.keys (DataLoader.queue (batchDataLoader (client (world res.1)))) =
    DataLoader.keys (DataLoader.queue (batchDataLoader (client (world r)))) ++
    objects_of build xs r.
Proof.
  revert r. induction xs as [|x xs IH]; intros r Hreach Hall Hun.
  { simpl. unfold objects_of. simpl. by rewrite app_nil_r. }
  destruct (reachable_invariant (world r) Hreach) as [(L1 & L2 & _) _].
  pose proof (literal_is_new r Batching (build x) Hall) as Hmiss.
  set (o := at_address (heap_top r) (build x)) in *.
  assert (Hu : ¬ scoped o).
  { intros Hs%truthy_spec. simpl in Hs. rewrite Hun in Hs. done. }
  pose proof (submit_unscoped_miss (world r) o Hu L1 L2 Hmiss) as Hsub.
  assert (Hreq : request (build x) r =
    ({| world := (jsonRequest (world r) o).1; heap_top := S (heap_top r) |},
     next_promise (world r))).
  { unfold request. fold o. by rewrite Hsub. }
  cbn [request_each]. rewrite Hreq.
  set (r1 := {| world := _; heap_top := _ |}).
  assert (Hreach1 : reachable (world r1)).
  { apply (reachable_step (world r) (Submit o) Hreach). }
  assert (Hall1 : allocated r1).
  { pose proof (request_allocated (build x) r Hall) as H. by rewrite Hreq in H. }
  destruct (IH r1 Hreach1 Hall1 Hun) as (Hps & Hr & Hlog & Hcall & Hs & Ho & Hq).
  destruct (request_each build xs r1) as [r2 ps]. simpl in *.
  rewrite Hsub in *. simpl in *.
  split; [by rewrite Hps|]. split; [done|]. split; [done|].
  split; [done|]. split; [done|]. split; [done|].
  rewrite Hq. unfold DataLoader.keys, objects_of. rewrite map_app. simpl.
  rewrite <- app_assoc. simpl. rewrite Nat.add_0_r. do 2 f_equal.
  apply imap_ext. intros i y _. simpl. f_equal. lia.
Qed.

(** X15.  [shareInfos] makes one request per address, each a new object
    with a new promise, and sends none of them itself: when the tick ends
    they leave together, behind whatever was queued already and in the
    order of the addresses, in one batch call under the client's session
    and origin.  For no address at all nothing is made. *)
Theorem shareInfos_is_one_batch (payload : JSON → RequestBody)
    (addresses : list string) (r : Runtime) :
  reachable (world r) →
  allocated r →
  let res := shareInfos payload addresses r in
  res.2 = seq (next_promise (world r)) (length addresses) ∧
  log (world res.1) = log (world r) ∧
  (addresses ≠ [] →
   since (world r) (tick (world res.1)) =
     [BatchCall (next_call (world r))
        (batchDataHandler_request (client (world r))
           (DataLoader.keys
              (DataLoader.queue (batchDataLoader (client (world r)))) ++
            objects_of (shareInfos_literal payload) addresses r))]) ∧
  (addresses = [] → res.1 = r).
Proof.
  intros Hreach Hall res. unfold res, shareInfos. clear res.
  destruct (request_each_unscoped (shareInfos_literal payload) addresses r
              Hreach Hall (fun _ => eq_refl))
    as (Hps & Hr & Hlog & Hcall & Hs & Ho & Hq).
  set (w' := world (request_each (shareInfos_literal payload) addresses r).1)
    in *.
  split; [done|]. split; [done|]. split; [|by intros ->].
  intros Hne.
  destruct (reachable_invariant w' Hr) as [Hl _].
  assert (Htick : tick w' = dispatchQueue Batching w').
  { rewrite (tick_as_constructed _ Hl).
    destruct (DataLoader.queue (batchDataLoader (client w'))); [|done].
    simpl in Hq. symmetry in Hq. apply app_eq_nil in Hq as [_ Hq].
    destruct addresses; [done|]. discriminate Hq. }
  rewrite Htick. apply since_app. simpl. rewrite Hlog, Hcall.
  unfold batchDataHandler_request. simpl. by rewrite Hs, Ho, Hq.
Qed.

Lemma shareInfos_is_one_batch_witness :
  let payload := fun _ : JSON => "share"%string in
  let addresses := ["a@example.org"%string; "b@example.org"%string] in
  let r := {| world := boot sample_client; heap_top := 0 |} in
  let res := shareInfos payload addresses r in
  res.2 = seq (next_promise (world r)) (length addresses) ∧
  log (world res.1) = log (world r) ∧
  (addresses ≠ [] →
   since (world r) (tick (world res.1)) =
     [BatchCall (next_call (world r))
        (batchDataHandler_request (client (world r))
           (DataLoader.keys
              (DataLoader.queue (batchDataLoader (client (world r)))) ++
            objects_of (shareInfos_literal payload) addresses r))]) ∧
  (addresses = [] → res.1 = r).
Proof.
  apply (shareInfos_is_one_batch (fun _ : JSON => "share"%string)
           ["a@example.org"%string; "b@example.org"%string]
           {| world := boot sample_client; heap_top := 0 |}).
  - apply (reachable_boot "localhost" "/service/soap"
             {| zimbraOrigin := None; opt_soapPathname := None;
                opt_notificationHandler := Some (quiet_handler 7) |}).
  - intros which k [p Hk]. destruct which; simpl in Hk;
      by rewrite lookup_empty in Hk.
Defined.

(** ** [Promise.all] over promises of a batch *)

Lemma omap_step {A B : Type} (f : A → option B) (x : A) (l : list A) :
  omap f (x :: l) =
    match f x with
    | Some y => y :: omap f l
    | None => omap f l
    end.
Proof. done. Qed.

Lemma omap_nothing {A B : Type} (f : A → option B) (l : list A) :
  Forall (fun x => f x = None) l → omap f l = [].
Proof.
  induction 1 as [|x l Hx _ IH]; [done|]. by rewrite omap_step, Hx.
Qed.

Lemma settled_promises (q : list DataLoader.QueueEntry) (values : list Value)
    (ev : Event) :
  ev ∈ zip_with DataLoader.settle_entry q values →
  ∃ entry, entry ∈ q ∧ delivered_promise ev = Some (DataLoader.settle entry).
Proof.
  intros (i & entry & v & -> & Hq & _)%elem_of_lookup_zip_with.
  exists entry. split; [by eapply list_elem_of_lookup_2|]. by destruct v.
Qed.

Lemma rejections_of_others (ps : list promise)
    (q : list DataLoader.QueueEntry) (values : list Value) :
  (∀ entry, entry ∈ q → DataLoader.settle entry ∉ ps) →
  omap (fun ev => match ev with
                  | Rejected p e => if decide (p ∈ ps) then Some e else None
                  | _ => None
                  end) (zip_with DataLoader.settle_entry q values) = [].
Proof.
  intros Hq. apply omap_nothing, Forall_forall. intros ev Hev.
  apply settled_promises in Hev as (entry & Hin & Hp).
  destruct ev; try done. simpl in Hp. injection Hp as ->.
  rewrite decide_False; [done|]. by apply Hq.
Qed.

Lemma rejections_of_mine (ps : list promise)
    (q : list DataLoader.QueueEntry) (items : list BatchItem) :
  (∀ entry, entry ∈ q → DataLoader.settle entry ∈ ps) →
  length items = length q →
  omap (fun ev => match ev with
                  | Rejected p e => if decide (p ∈ ps) then Some e else None
                  | _ => None
                  end)
    (zip_with DataLoader.settle_entry q (map item_value items)) =
  omap (fun r => match r with
                 | ItemError e => Some e
                 | ItemReply _ => None
                 end) items.
Proof.
  revert items. induction q as [|entry q IH];
    intros [|r items] Hps Hlen; simpl in Hlen; try lia; [done|].
  cbn [map zip_with]. rewrite !omap_step, IH.
  - destruct r as [e|b]; simpl; [|done].
    rewrite decide_True; [done|]. apply Hps, list_elem_of_here.
  - intros entry' Hin. by apply Hps, list_elem_of_further.
  - lia.
Qed.

Lemma resolution_skips (p : promise) (pre rest : list Event) :
  (∀ b, Resolved p b ∉ pre) →
  resolution p (pre ++ rest) = resolution p rest.
Proof.
  intros Hpre. unfold resolution. rewrite omap_app, omap_nothing; [done|].
  apply Forall_forall. intros ev Hin.
  destruct ev as [| | | | |p' b|]; try done.
  case_decide as Heq; [|done]. subst p'. by apply Hpre in Hin.
Qed.

Lemma resolutions_of_mine (pre suffix : list Event)
    (q : list DataLoader.QueueEntry) (items : list BatchItem) :
  NoDup (map DataLoader.settle q) →
  length items = length q →
  first_error items = None →
  (∀ p b, Resolved p b ∈ pre → p ∉ map DataLoader.settle q) →
  Forall2 (fun p b =>
      resolution p
        (pre ++ zip_with DataLoader.settle_entry q (map item_value items)
             ++ suffix) =
      Some b)
    (map DataLoader.settle q) (bodies items).
Proof.
  revert pre items. induction q as [|entry q IH];
    intros pre [|r items] Hnd Hlen Herr Hpre; simpl in Hlen; try lia;
    [by constructor|].
  cbn [map] in Hnd. apply NoDup_cons in Hnd as [Hnotin Hnd].
  destruct r as [e|b]; [done|].
  assert (Herr' : first_error items = None) by done.
  unfold bodies. cbn [map zip_with]. rewrite omap_step. simpl.
  constructor.
  - rewrite resolution_skips.
    + unfold resolution. rewrite omap_step. by rewrite decide_True.
    + intros b' Hin. apply (Hpre _ _ Hin). apply list_elem_of_here.
  - change (pre ++ Resolved (DataLoader.settle entry) b ::
              zip_with DataLoader.settle_entry q (map item_value items)
              ++ suffix)
      with (pre ++ [Resolved (DataLoader.settle entry) b] ++
              zip_with DataLoader.settle_entry q (map item_value items)
              ++ suffix).
    rewrite app_assoc. apply IH; try done.
    + lia.
    + intros p b' [Hin|Hin]%elem_of_app.
      * intros Hq. apply (Hpre _ _ Hin). by apply list_elem_of_further.
      * apply list_elem_of_singleton in Hin as [= -> _]. done.
Qed.

Lemma served_NoDup (w : World) (id : call) (f : InFlight) :
  reachable w → in_flight w !! id = Some f → NoDup (served f).
Proof.
  intros Hreach Hf.
  destruct (reachable_accounted w Hreach) as [_ Hacc]. unfold accounted in Hacc.
  assert (Hnd : NoDup (delivered (log w) ++ awaiting w ++ queued w)).
  { rewrite Hacc. apply NoDup_seq. }
  apply NoDup_app in Hnd as (_ & _ & Hnd).
  apply NoDup_app in Hnd as (Hnd & _).
  rewrite <- (awaiting_delete w id f Hf) in Hnd.
  by apply NoDup_app in Hnd as (? & _).
Qed.

(** X16.  [Promise.all] over promises of one batch, as [shareInfos] hands
    it back for the requests it made: for any stretch of the entries of a
    batch, whatever other callers' requests come before and after it in
    that batch.  Once the batch is answered with one item per request, and
    the notification handler did not throw, the whole is rejected with the
    error of the first item of that stretch that is an error value,
    whatever the other items hold; when the stretch has no such item it is
    resolved with the bodies of its items, in the order of its requests. *)
Theorem Promise_all_fails_with_the_first_failed_item (w : World) (id : call)
    (before mine after : list DataLoader.QueueEntry)
    (header : ResponseHeader) (items_before items items_after : list BatchItem) :
  reachable w →
  in_flight w !! id =
    Some {| via := Batching; entries := before ++ mine ++ after |} →
  length items_before = length before →
  length items = length mine →
  length items_after = length after →
  handler_returns (client w) header →
  let response := {| b_header := header;
                     requests := items_before ++ items ++ items_after |} in
  let w' := complete id (BatchReplied response) w in
  Promise_all (map DataLoader.settle mine) (since w w') =
    Some match first_error items with
         | Some e => inl e
         | None => inr (bodies items)
         end.
Proof.
  intros Hreach Hf Hlb Hlm Hla Hret response w'.
  pose proof (served_NoDup w id _ Hreach Hf) as Hnd. unfold served in Hnd.
  cbn [entries] in Hnd. rewrite !map_app in Hnd.
  apply NoDup_app in Hnd as (_ & Hbefore' & Hnd).
  apply NoDup_app in Hnd as (Hmine & Hafter & _).
  assert (Hbefore : ∀ entry, entry ∈ before →
            DataLoader.settle entry ∉ map DataLoader.settle mine).
  { intros entry Hentry Hp.
    apply (Hbefore' (DataLoader.settle entry)).
    - by apply (list_elem_of_fmap_2 DataLoader.settle).
    - apply elem_of_app. by left. }
  set (evs := (batchDataHandler_then (client w) response).1.2).
  assert (Hevs : Forall (fun ev => is_delivery ev = false) evs).
  { unfold evs. rewrite batchDataHandler_then_eq. apply reply_updates. }
  assert (Hsince : since w w' =
    (evs ++ zip_with DataLoader.settle_entry before
              (map item_value items_before)) ++
    zip_with DataLoader.settle_entry mine (map item_value items) ++
    zip_with DataLoader.settle_entry after (map item_value items_after)).
  { apply since_app. unfold w'.
    rewrite (complete_in_flight id _ w _ _ _ _ Hf
               (batch_callback_settled (client w) response Hret)).
    cbn [via entries loader requests response]. unfold DataLoader.settle_batch.
    rewrite decide_True.
    - cbn [fst snd log]. rewrite !map_app.
      rewrite !zip_with_app by (rewrite length_map; lia).
      by rewrite <- !app_assoc.
    - unfold DataLoader.keys. rewrite !length_map, !length_app. lia. }
  assert (Hothers : ∀ p, p ∈ map DataLoader.settle mine →
    ∀ b, Resolved p b ∉
      evs ++ zip_with DataLoader.settle_entry before
               (map item_value items_before)).
  { intros p Hp b [Hin|Hin]%elem_of_app.
    - by apply (proj1 (Forall_forall _ _) Hevs) in Hin.
    - apply settled_promises in Hin as (entry & Hentry & [= ->]).
      by apply (Hbefore entry). }
  rewrite Hsince. unfold Promise_all.
  assert (Hrej : first_rejection (map DataLoader.settle mine)
      ((evs ++ zip_with DataLoader.settle_entry before
                 (map item_value items_before)) ++
       zip_with DataLoader.settle_entry mine (map item_value items) ++
       zip_with DataLoader.settle_entry after (map item_value items_after)) =
    first_error items).
  { unfold first_rejection, first_error. rewrite !omap_app.
    rewrite (omap_nothing _ evs).
    2:{ eapply Forall_impl; [exact Hevs|]. by intros []. }
    rewrite (rejections_of_others _ before) by done.
    rewrite (rejections_of_others _ after).
    2:{ intros entry Hentry Hp. apply (Hafter _ Hp).
        by apply (list_elem_of_fmap_2 DataLoader.settle). }
    rewrite (rejections_of_mine _ mine items); [|
      intros entry Hentry; by apply (list_elem_of_fmap_2 DataLoader.settle)|
      done].
    simpl. by rewrite app_nil_r. }
  rewrite Hrej.
  destruct (first_error items) as [e|] eqn:Herr; [done|].
  rewrite (mapM_Some_2 _ _ (bodies items)); [done|].
  apply resolutions_of_mine; try done.
  intros p b Hin Hp. by apply (Hothers p Hp b).
Qed.

Lemma Promise_all_fails_with_the_first_failed_item_witness :
  let before := [{| DataLoader.key := getFolder 1; DataLoader.settle := 0 |}] in
  let mine := [{| DataLoader.key := getFolder 2; DataLoader.settle := 1 |};
               {| DataLoader.key := getFolder 3; DataLoader.settle := 2 |}] in
  let header := {| session_id := None;
                   notify := [{| notification_content := "first" |}] |} in
  let items := [ItemReply "a"; ItemReply "b"] in
  let response :=
    {| b_header := header;
       requests := [ItemError (Fault "no such folder")] ++ items ++ [] |} in
  let w' := complete 0 (BatchReplied response) three_in_flight in
  Promise_all (map DataLoader.settle mine) (since three_in_flight w') =
    Some match first_error items with
         | Some e => inl e
         | None => inr (bodies items)
         end.
Proof.
  apply (Promise_all_fails_with_the_first_failed_item three_in_flight 0
           [{| DataLoader.key := getFolder 1; DataLoader.settle := 0 |}]
           [{| DataLoader.key := getFolder 2; DataLoader.settle := 1 |};
            {| DataLoader.key := getFolder 3; DataLoader.settle := 2 |}]
           []
           {| session_id := None;
              notify := [{| notification_content := "first" |}] |}
           [ItemError (Fault "no such folder")]
           [ItemReply "a"; ItemReply "b"] []).
  - apply (reachable_run [Submit (getFolder 1); Submit (getFolder 2);
                          Submit (getFolder 3); Tick]).
    apply (reachable_boot "localhost" "/service/soap"
             {| zimbraOrigin := None; opt_soapPathname := None;
                opt_notificationHandler := Some (quiet_handler 7) |}).
  - vm_compute. reflexivity.
  - reflexivity.
  - reflexivity.
  - reflexivity.
  - intros n handler Hn Hh. vm_compute in Hh. by injection Hh as <-.
Defined.

(** Three promises of one batch: all of them under the mixed reply, the
    last two when only the first item failed, and all before any reply. *)
Example Promise_all_of_two_replies :
  Promise_all [0; 1; 2]
    (since three_in_flight
       (complete 0 (BatchReplied mixed_reply) three_in_flight)) =
    Some (inl (Fault "no such folder")) ∧
  Promise_all [1; 2]
    (since three_in_flight
       (complete 0
          (BatchReplied
             (reply_with None []
                [ItemError (Fault "no such folder");
                 ItemReply "a"; ItemReply "b"]))
          three_in_flight)) =
    Some (inr ["a"%string; "b"%string]) ∧
  Promise_all [0; 1; 2] (log three_in_flight) = None.
Proof. vm_compute. done. Qed.

(** ** The body of [action] *)

Lemma member_define (k k' : string) (v : JSON) (members : list (string * JSON)) :
  member k (JObject (define k' v members)) =
    if decide (k = k') then Some v else member k (JObject members).
Proof.
  induction members as [|[k0 v0] members IH]; simpl.
  - destruct (String.eqb_spec k' k); case_decide; simplify_eq; done.
  - destruct (String.eqb_spec k' k0) as [->|Hne]; simpl.
    + destruct (String.eqb_spec k0 k); case_decide; simplify_eq; done.
    + destruct (String.eqb_spec k0 k) as [->|Hne']; simpl.
      * by rewrite decide_False by done.
      * apply IH.
Qed.

Lemma member_object_other (k : string) (properties acc : list (string * JSON)) :
  Forall (fun kv => kv.1 ≠ k) properties →
  member k (JObject (foldl (fun members kv => define kv.1 kv.2 members)
                       acc properties)) =
  member k (JObject acc).
Proof.
  revert acc. induction properties as [|[k' v] properties IH];
    intros acc Hne; [done|].
  apply Forall_cons in Hne as [Hk Hne].
  change (foldl (fun members kv => define kv.1 kv.2 members) acc
            ((k', v) :: properties))
    with (foldl (fun members kv => define kv.1 kv.2 members)
            (define k' v acc) properties).
  rewrite IH by done.
  rewrite member_define. by rewrite decide_False by done.
Qed.

(** X17.  Provided the other action options bring no [id] of their own,
    the [id] of the action [action] sends is the given [id] when that is a
    non-empty string, whatever [ids] holds, and the [ids] joined by commas
    otherwise; with neither, or with no [ids] and an empty [id], it is the
    empty string. *)
Theorem action_prefers_id_over_ids (id : option string)
    (ids : option (list string)) (rest : JSON) :
  Forall (fun kv => kv.1 ≠ "id"%string) (members_of rest) →
  ∃ a, member "action" (action_body id ids rest) = Some a ∧
    (∀ t, id = Some t → t ≠ EmptyString → member "id" a = Some (JString t)) ∧
    (truthy id = false →
     member "id" a = Some (JString (String.concat "," (default [] ids)))) ∧
    (truthy id = false → ids = None ∨ ids = Some [] →
     member "id" a = Some (JString EmptyString)).
Proof.
  intros Hrest.
  exists (object ([("id"%string, JString (action_id id ids))] ++
                  members_of rest)).
  split; [reflexivity|].
  assert (Hid : member "id"
            (object ([("id"%string, JString (action_id id ids))] ++
                     members_of rest)) =
          Some (JString (action_id id ids))).
  { unfold object. rewrite foldl_app. by rewrite member_object_other. }
  rewrite Hid. unfold action_id, truthy. split; [|split].
  - intros t -> Hne. by destruct (String.eqb_spec t EmptyString).
  - destruct id as [t|]; [|done].
    by destruct (String.eqb_spec t EmptyString).
  - intros Hfalsy [-> | ->];
      (destruct id as [t|]; [|done]);
      by destruct (String.eqb_spec t EmptyString).
Qed.

Lemma action_prefers_id_over_ids_witness :
  ∃ a, member "action"
         (action_body (Some "7"%string) (Some ["8"%string; "9"%string])
            (JObject [("op"%string, JString "read")])) = Some a ∧
    (∀ t, Some "7"%string = Some t → t ≠ EmptyString →
       member "id" a = Some (JString t)) ∧
    (truthy (Some "7"%string) = false →
     member "id" a =
       Some (JString (String.concat ","
                        (default [] (Some ["8"%string; "9"%string]))))) ∧
    (truthy (Some "7"%string) = false →
     Some ["8"%string; "9"%string] = None ∨
     Some ["8"%string; "9"%string] = Some [] →
     member "id" a = Some (JString EmptyString)).
Proof.
  apply (action_prefers_id_over_ids (Some "7"%string)
           (Some ["8"%string; "9"%string])
           (JObject [("op"%string, JString "read")])).
  repeat constructor. simpl. discriminate.
Defined.

(** Two folders, selected by [ids] alone. *)
Example action_body_joins_ids :
  action_body None (Some ["8"%string; "9"%string])
    (JObject [("op"%string, JString "read")]) =
    JObject [("action"%string,
              JObject [("id"%string, JString "8,9");
                       ("op"%string, JString "read")])].
Proof. reflexivity. Qed.
